(** * TrtInt8Calibrator (source/common/trt_calibrator.h)

    A shallow embedding of the INT8 calibrator: the two constructors, the
    batch callback [getBatch], the calibration-cache accessors, the scale
    override transcoder [setScaleFile] and the legacy accessors, over
    explicit models of what the class touches: the file system, standard
    output, the CUDA device heap and the batch stream it is given. *)

From Stdlib Require Import ZArith SpecFloat Ascii String.
From stdpp Require Import gmap strings list.

Local Open Scope string_scope.
Local Open Scope list_scope.
Local Open Scope Z_scope.

(** ** Outcomes

    An operation either returns, or the process leaves the normal path:
    [CUDA_CHECK] and [assert] abort it, [std::stof] throws, and some
    statements have undefined behaviour (a null or past-the-end
    dereference, an out-of-range index, signed overflow). Two cases
    belong to the model and not to the program. [NotModelled]: the
    program went on with a library result the model does not determine
    (see [stof]). [OutOfFuel]: the loop over the override file is bounded
    by a step count, and [setScaleFile_loop_fuel] shows that the count
    [setScaleFile] gives it is always enough. *)

Inductive failure :=
  | CudaAbort
  | AssertFailed
  | Thrown (what : string)
  | Undefined
  | NotModelled
  | OutOfFuel.

Inductive result (A : Type) :=
  | Ok (a : A)
  | Fail (f : failure).
Arguments Ok {A} a.
Arguments Fail {A} f.

Global Instance result_ret : MRet result := fun A a => Ok a.

Global Instance result_bind : MBind result := fun A B k r =>
  match r with
  | Ok a => k a
  | Fail f => Fail f
  end.

Definition of_option {A} (o : option A) (f : failure) : result A :=
  match o with
  | Some a => Ok a
  | None => Fail f
  end.

(** ** Machine integers *)

(** [int * int64_t] is computed in [int64_t]; overflow is undefined. *)
Definition mul_int64 (a b : Z) : result Z :=
  let p := a * b in
  if (- 2 ^ 63 <=? p) && (p <? 2 ^ 63) then Ok p else Fail Undefined.

(** Conversion of an [int64_t] to [size_t]. *)
Definition to_size_t (z : Z) : Z := z mod 2 ^ 64.

(** ** binary32 arithmetic

    [float] is IEEE-754 binary32: 24 bits of precision, infinities at
    exponent 128, round to nearest even. Values are [spec_float]s of the
    standard library's specification of floating-point arithmetic. *)

Module Float32.

Definition prec : Z := 24.
Definition emax : Z := 128.

Definition div : spec_float -> spec_float -> spec_float := SFdiv prec emax.

(** The nearest binary32 to [num / den], for positive integers. *)
Definition of_ratio (s : bool) (num den : positive) : spec_float :=
  div (S754_finite s num 0) (S754_finite false den 0).

Definition of_Z (z : Z) : spec_float := binary_normalize prec emax z 0 false.

(** Is [m * 2^e] exactly [num / den]? *)
Definition is_ratio (m : positive) (e : Z) (num den : positive) : bool :=
  if 0 <=? e then Z.pos m * 2 ^ e * Z.pos den =? Z.pos num
  else Z.pos m * Z.pos den =? Z.pos num * 2 ^ (- e).

Definition sign_bit (s : bool) : Z := if s then Z.shiftl 1 31 else 0.

(** The bit pattern a [union { uint32_t; float; }] exposes. A finite
    value is expected in canonical form (as every operation above
    returns it): the 23 low bits hold the fraction and the next 8 the
    biased exponent, which is 0 for subnormals. The NaN case is the
    quiet NaN without payload; [spec_float] keeps no payloads, and no
    NaN arises from dividing a finite value by 127. *)
Definition bits (f : spec_float) : Z :=
  match f with
  | S754_zero s => sign_bit s
  | S754_infinity s => Z.lor (sign_bit s) (Z.shiftl 255 23)
  | S754_nan => Z.lor (Z.shiftl 255 23) (Z.shiftl 1 22)
  | S754_finite s m e =>
      if Z.pos m <? 2 ^ 23 then Z.lor (sign_bit s) (Z.pos m)
      else Z.lor (sign_bit s)
             (Z.lor (Z.shiftl (e + 150) 23) (Z.land (Z.pos m) (2 ^ 23 - 1)))
  end.

End Float32.

(** [double] is binary64; a [float] converts to it exactly. *)
Module Float64.

Definition prec : Z := 53.
Definition emax : Z := 1024.

Definition of_ratio (s : bool) (num den : positive) : spec_float :=
  SFdiv prec emax (S754_finite s num 0) (S754_finite false den 0).

Definition of_float (f : spec_float) : spec_float :=
  match f with
  | S754_finite s m e => binary_round prec emax s m e
  | _ => f
  end.

Definition to_float (d : spec_float) : spec_float :=
  match d with
  | S754_finite s m e => binary_round Float32.prec Float32.emax s m e
  | _ => d
  end.

End Float64.

(** ** Characters *)

Definition code (c : ascii) : Z := Z.of_N (N_of_ascii c).

Definition isspace (c : ascii) : bool :=
  (code c =? 32) || ((9 <=? code c) && (code c <=? 13)).

Definition isdigit (c : ascii) : bool :=
  (48 <=? code c) && (code c <=? 57).

Definition digit_value (c : ascii) : Z := code c - 48.

Definition newline : ascii := ascii_of_N 10.
Definition endl : string := String newline "".

(** ** std::stof

    [std::stof(s)] calls [strtof] and throws [std::invalid_argument] when
    nothing was converted and [std::out_of_range] when [strtof] reports
    [ERANGE]. [strtof] skips leading white space, reads an optional sign
    and then the longest prefix that is a number, ignoring what follows.

    The model covers the decimal form [digits[.digits][(e|E)[sign]digits]]
    with correct rounding. The other forms [strtof] accepts (hexadecimal
    floats, INF, NAN) are answered [StofOtherForm]: every input that
    starts like one of them is put there, so that a [StofValue] answer
    is always the value of a decimal numeral. Overflow is [ERANGE].
    Underflow is [ERANGE] as the GNU C library reports it: when the
    conversion is inexact and the result is tiny after rounding, that
    is, when the exact value rounded to 24 bits with no bound on the
    exponent is still below the least normal number [2^-126]. An exact
    subnormal is no error, and neither is a value that rounds up to
    [2^-126] (such as 1.17549435e-38). *)

Inductive stof_result :=
  | StofValue (f : spec_float)
  | StofInvalidArgument
  | StofOutOfRange
  | StofOtherForm.

Fixpoint skip_space (s : string) : string :=
  match s with
  | String c s' => if isspace c then skip_space s' else s
  | EmptyString => s
  end.

(** Reads the longest run of decimal digits: their number, their value
    on top of [acc], and the rest of the string. *)
Fixpoint read_digits (s : string) (n acc : Z) : Z * Z * string :=
  match s with
  | String c s' =>
      if isdigit c then read_digits s' (n + 1) (10 * acc + digit_value c)
      else (n, acc, s)
  | EmptyString => (n, acc, s)
  end.

Definition read_sign (s : string) : bool * string :=
  match s with
  | String "-" s' => (true, s')
  | String "+" s' => (false, s')
  | _ => (false, s)
  end.

(** The exponent part; it counts only if at least one digit follows. *)
Definition read_exponent (s : string) : Z :=
  match s with
  | String c s' =>
      if (c =? "e")%char || (c =? "E")%char then
        let '(neg, s'') := read_sign s' in
        let '(n, v, _) := read_digits s'' 0 0 in
        if n =? 0 then 0 else if neg then - v else v
      else 0
  | EmptyString => 0
  end.

Definition other_form (s : string) : bool :=
  match s with
  | String c (String d _) =>
      (c =? "i")%char || (c =? "I")%char || (c =? "n")%char || (c =? "N")%char
      || ((c =? "0")%char && ((d =? "x")%char || (d =? "X")%char))
  | String c EmptyString =>
      (c =? "i")%char || (c =? "I")%char || (c =? "n")%char || (c =? "N")%char
  | EmptyString => false
  end.

(** Is [num / den] tiny after rounding? Rounded to nearest even at 24
    bits, a value stays below [2^-126] exactly when it is below
    [2^-126 - 2^-151], half a unit in the last place under [2^-126]
    (the tie goes up, to the even mantissa). *)
Definition tiny_after_rounding (num den : positive) : bool :=
  Z.pos num * 2 ^ 151 <? (2 ^ 25 - 1) * Z.pos den.

(** The binary32 nearest to [m * 10^e], with the [ERANGE] cases: a
    result that is infinite, and an inexact result (zero included) of a
    value that is tiny after rounding. *)
Definition round_decimal (neg : bool) (m e : Z) : stof_result :=
  match m with
  | Z.pos p =>
      let num := Z.to_pos (Z.pos p * 10 ^ Z.max e 0) in
      let den := Z.to_pos (10 ^ Z.max (- e) 0) in
      match Float32.of_ratio neg num den with
      | S754_finite s m' e' =>
          if Float32.is_ratio m' e' num den || negb (tiny_after_rounding num den)
          then StofValue (S754_finite s m' e')
          else StofOutOfRange
      | _ => StofOutOfRange
      end
  | _ => StofValue (S754_zero neg)
  end.

Definition stof (str : string) : stof_result :=
  let '(neg, s) := read_sign (skip_space str) in
  if other_form s then StofOtherForm
  else
    let '(ni, vi, s1) := read_digits s 0 0 in
    let '(nf, v, s2) :=
      match s1 with
      | String "." s1' => read_digits s1' 0 vi
      | _ => (0, vi, s1)
      end in
    if ni + nf =? 0 then StofInvalidArgument
    else round_decimal neg v (read_exponent s2 - nf).

(** ** Stream output of a [uint32_t] under [std::hex]: lower-case digits,
    no prefix, no leading zeros. *)

Definition hex_digit (d : Z) : ascii :=
  if d <? 10 then ascii_of_N (Z.to_N (48 + d)) else ascii_of_N (Z.to_N (87 + d)).

Fixpoint hex_digits (width : nat) (n : Z) (acc : string) : string :=
  match width with
  | O => acc
  | S width' =>
      let acc' := String (hex_digit (n mod 16)) acc in
      if n / 16 =? 0 then acc' else hex_digits width' (n / 16) acc'
  end.

Definition hex_uint32 (n : Z) : string := hex_digits 8 (n mod 2 ^ 32) "".

(** ** Files

    Paths map to contents (bytes, as a [std::string] holds them). Two
    sets stand for what the environment refuses: the paths that cannot
    be opened for reading although present, and the paths that cannot be
    opened for writing (a read-only file, a directory that is missing). *)

Record filesystem := {
  fs_files : gmap string string;
  fs_noread : gset string;
  fs_nowrite : gset string
}.

Definition set_files (fs : filesystem) (files : gmap string string) : filesystem :=
  {| fs_files := files; fs_noread := fs_noread fs; fs_nowrite := fs_nowrite fs |}.

(** [std::ifstream fi(path)]: the contents if the file opens. *)
Definition open_read (fs : filesystem) (path : string) : option string :=
  if decide (path ∈ fs_noread fs) then None else fs_files fs !! path.

(** [std::ofstream fo(path)]: whether the stream is open. Opening creates
    the file, or truncates the one that is there. *)
Record ofstream := { of_path : string; of_open : bool }.

Definition open_write (fs : filesystem) (path : string) : ofstream * filesystem :=
  if decide (path ∈ fs_nowrite fs) then
    ({| of_path := path; of_open := false |}, fs)
  else
    ({| of_path := path; of_open := true |},
     set_files fs (<[path := ""]> (fs_files fs))).

(** Output to a stream that failed to open is dropped. Every line the
    class writes ends in [std::endl] or the stream is closed right after,
    so what is written is in the file when the operation is over. *)
Definition of_write (fo : ofstream) (data : string) (fs : filesystem) : filesystem :=
  if of_open fo then
    set_files fs (alter (fun old => old +:+ data) (of_path fo) (fs_files fs))
  else fs.

(** ** Input streams and std::getline *)

Record istream := { is_buf : string; is_eof : bool; is_fail : bool }.

Definition istream_of (s : string) : istream :=
  {| is_buf := s; is_eof := false; is_fail := false |}.

Definition is_good (i : istream) : bool := negb (is_eof i) && negb (is_fail i).

(** The characters before the first [delim], and what follows it if there
    is one. *)
Fixpoint scan (delim : ascii) (s : string) : string * option string :=
  match s with
  | EmptyString => ("", None)
  | String c s' =>
      if (c =? delim)%char then ("", Some s')
      else let '(field, rest) := scan delim s' in (String c field, rest)
  end.

(** [std::getline(is, str, delim)]. When the stream is not good the
    sentry fails: [failbit] is set and [str] is NOT cleared. Otherwise
    [str] is erased and filled up to the delimiter, which is consumed, or
    up to the end of the input, which sets [eofbit]; extracting nothing
    at all sets [failbit]. *)
Definition getline (i : istream) (str : string) (delim : ascii) : istream * string :=
  if is_good i then
    match scan delim (is_buf i) with
    | (field, Some rest) =>
        ({| is_buf := rest; is_eof := false; is_fail := false |}, field)
    | (field, None) =>
        ({| is_buf := ""; is_eof := true; is_fail := (String.length field =? 0)%nat |},
         field)
    end
  else ({| is_buf := is_buf i; is_eof := is_eof i; is_fail := true |}, str).

(** ** The CUDA device

    Device pointers are handles into a heap of buffers; a buffer has the
    capacity it was allocated with and the bytes copied into it so far.
    [dev_trace] records the runtime calls in the order they were made. *)

Record dbuf := { db_cap : Z; db_data : string }.

Inductive cuda_call :=
  | CudaMalloc (ptr : N) (size : Z)
  | CudaMemcpyHtoD (dst : N) (data : string)
  | CudaFree (ptr : N).

Record device := {
  dev_heap : gmap N dbuf;
  dev_next : N;
  dev_free : Z;
  dev_trace : list cuda_call
}.

(** The capacity of every live buffer. *)
Definition capacities (d : device) : gmap N Z := db_cap <$> dev_heap d.

(** [cudaMalloc(&p, size)]: fails when the device has not that much left. *)
Definition cudaMalloc (d : device) (size : Z) : option (N * device) :=
  if size <=? dev_free d then
    let p := dev_next d in
    Some (p, {| dev_heap := <[p := {| db_cap := size; db_data := "" |}]> (dev_heap d);
                dev_next := N.succ p;
                dev_free := dev_free d - size;
                dev_trace := dev_trace d ++ [CudaMalloc p size] |})
  else None.

Fixpoint take_bytes (n : nat) (s : string) : string :=
  match n, s with
  | S n', String c s' => String c (take_bytes n' s')
  | _, _ => ""
  end.

Fixpoint drop_bytes (n : nat) (s : string) : string :=
  match n, s with
  | S n', String _ s' => drop_bytes n' s'
  | _, _ => s
  end.

(** [cudaMemcpy(dst, src, count, cudaMemcpyHostToDevice)]. Reading
    [count] bytes from a host buffer that is shorter is undefined; a
    destination that is no live buffer, or too small a one, is an error
    status. *)
Definition cudaMemcpy (d : device) (dst : N) (src : string) (count : Z)
  : result (option device) :=
  if Z.of_nat (String.length src) <? count then Fail Undefined
  else
    match dev_heap d !! dst with
    | Some b =>
        if count <=? db_cap b then
          let n := Z.to_nat count in
          let data := take_bytes n src in
          Ok (Some {| dev_heap :=
                        <[dst := {| db_cap := db_cap b;
                                    db_data := data +:+ drop_bytes n (db_data b) |}]>
                          (dev_heap d);
                      dev_next := dev_next d;
                      dev_free := dev_free d;
                      dev_trace := dev_trace d ++ [CudaMemcpyHtoD dst data] |})
        else Ok None
    | None => Ok None
    end.

(** [cudaFree(p)]. *)
Definition cudaFree (d : device) (p : N) : option device :=
  match dev_heap d !! p with
  | Some b =>
      Some {| dev_heap := delete p (dev_heap d);
              dev_next := dev_next d;
              dev_free := dev_free d + db_cap b;
              dev_trace := dev_trace d ++ [CudaFree p] |}
  | None => None
  end.

(** [CUDA_CHECK(call)] (common/common_macros.h): a status other than
    success ends the process. *)
Definition CUDA_CHECK {A} (status : option A) : result A :=
  of_option status CudaAbort.

(** ** The world outside the object *)

Record world := {
  w_fs : filesystem;
  w_dev : device;
  w_out : string
}.

Definition set_fs (w : world) (fs : filesystem) : world :=
  {| w_fs := fs; w_dev := w_dev w; w_out := w_out w |}.

Definition set_dev (w : world) (d : device) : world :=
  {| w_fs := w_fs w; w_dev := d; w_out := w_out w |}.

(** [std::cout << text << std::endl]. *)
Definition cout (w : world) (text : string) : world :=
  {| w_fs := w_fs w; w_dev := w_dev w; w_out := w_out w +:+ text +:+ endl |}.

(** ** The batch stream

    Modelled from the spec: the interface [IBatchStream] of
    common/trt_batch_stream.h, which the class is given and which is not
    part of this file. The batch source contract: [next] advances and
    answers false on exhaustion, [getBatch] gives one host buffer per
    input, [bytesPerBatch] the byte size of each input, [getBatchSize]
    the number of samples in a batch. A host pointer is modelled by the
    bytes it points to. *)

Module IBatchStream.

Class t (S : Type) := {
  next : S -> bool * S;
  getBatch : S -> list string;
  bytesPerBatch : S -> list Z;
  getBatchSize : S -> Z
}.

End IBatchStream.

(** A stream over a list of batches held in memory. *)
Record list_stream := {
  ls_bytes : list Z;
  ls_batch_size : Z;
  ls_current : list string;
  ls_pending : list (list string)
}.

Global Instance list_stream_batches : IBatchStream.t list_stream := {|
  IBatchStream.next s :=
    match ls_pending s with
    | [] => (false, s)
    | b :: rest =>
        (true, {| ls_bytes := ls_bytes s; ls_batch_size := ls_batch_size s;
                  ls_current := b; ls_pending := rest |})
    end;
  IBatchStream.getBatch := ls_current;
  IBatchStream.bytesPerBatch := ls_bytes;
  IBatchStream.getBatchSize := ls_batch_size
|}.

(** ** nvinfer1::CalibrationAlgoType (NvInfer.h) *)

Inductive CalibrationAlgoType :=
  | kLEGACY_CALIBRATION
  | kENTROPY_CALIBRATION
  | kENTROPY_CALIBRATION_2
  | kMINMAX_CALIBRATION.

Definition STR2CAT_MAPPING : gmap string CalibrationAlgoType :=
  list_to_map [
    ("legacy", kLEGACY_CALIBRATION);
    ("entropy", kENTROPY_CALIBRATION);
    ("entropy_2", kENTROPY_CALIBRATION_2);
    ("minmax", kMINMAX_CALIBRATION)
  ].

(** What [readCalibrationCache] and [readHistogramCache] return: null, or
    the address of the bytes of the member [mCalibrationCache]. *)
Inductive pointer :=
  | nullptr
  | mCalibrationCache_data.

(** The default argument [float quantile = 0.9999]: the [double] literal
    converted to [float]. *)
Definition default_quantile : spec_float :=
  Float64.to_float (Float64.of_ratio false 9999 10000).

(** ** The class *)

Section Calibrator.

Context {Stream : Type} `{IBatchStream.t Stream}.

(** The data members. [mStream] is [None] for a null pointer and
    [mQuantile] is [None] while the member holds no value. *)
Record TrtInt8Calibrator := {
  mStream : option Stream;
  m_buffers : list N;
  mInputBytes : list Z;
  mQuantile : option spec_float;
  mCalibrationCache : string;
  mCalibrationTableName : string;
  mAlgo : CalibrationAlgoType;
  mBatchSize : Z
}.

Definition set_mStream (this : TrtInt8Calibrator) (s : Stream) : TrtInt8Calibrator :=
  {| mStream := Some s; m_buffers := m_buffers this;
     mInputBytes := mInputBytes this; mQuantile := mQuantile this;
     mCalibrationCache := mCalibrationCache this;
     mCalibrationTableName := mCalibrationTableName this;
     mAlgo := mAlgo this; mBatchSize := mBatchSize this |}.

Definition set_mCalibrationCache (this : TrtInt8Calibrator) (c : string)
  : TrtInt8Calibrator :=
  {| mStream := mStream this; m_buffers := m_buffers this;
     mInputBytes := mInputBytes this; mQuantile := mQuantile this;
     mCalibrationCache := c;
     mCalibrationTableName := mCalibrationTableName this;
     mAlgo := mAlgo this; mBatchSize := mBatchSize this |}.

(** *** Construction *)

(** [for (auto& bytes : mInputBytes) { cudaMalloc(&tmp, mBatchSize * bytes);
    m_buffers.push_back(tmp); }] *)
Fixpoint allocate (batch : Z) (sizes : list Z) (buffers : list N) (d : device)
  : result (list N * device) :=
  match sizes with
  | [] => Ok (buffers, d)
  | bytes :: sizes' =>
      size ← mul_int64 batch bytes;
      '(tmp, d') ← CUDA_CHECK (cudaMalloc d (to_size_t size));
      allocate batch sizes' (buffers ++ [tmp]) d'
  end.

(** [TrtInt8Calibrator(stream, cacheFilename, algo)] *)
Definition from_stream (stream : option Stream) (cacheFilename algo : string) (w : world)
  : result (TrtInt8Calibrator * world) :=
  s ← of_option stream AssertFailed;
  a ← of_option (STR2CAT_MAPPING !! algo) Undefined;
  let sizes := IBatchStream.bytesPerBatch s in
  let batch := IBatchStream.getBatchSize s in
  '(buffers, d) ← allocate batch sizes [] (w_dev w);
  Ok ({| mStream := Some s; m_buffers := buffers; mInputBytes := sizes;
         mQuantile := None; mCalibrationCache := "";
         mCalibrationTableName := cacheFilename; mAlgo := a;
         mBatchSize := batch |}, set_dev w d).

(** [TrtInt8Calibrator(cacheFilename, algo, batchsize, quantile = 0.9999)];
    [quantile] is [None] when the argument is left out. *)
Definition from_cache (cacheFilename algo : string) (batchsize : Z)
    (quantile : option spec_float) : result TrtInt8Calibrator :=
  a ← of_option (STR2CAT_MAPPING !! algo) Undefined;
  Ok {| mStream := None; m_buffers := []; mInputBytes := [];
        mQuantile := Some (Float64.of_float (default default_quantile quantile));
        mCalibrationCache := "";
        mCalibrationTableName := cacheFilename; mAlgo := a;
        mBatchSize := batchsize |}.

(** [~TrtInt8Calibrator()] *)
Fixpoint free_all (buffers : list N) (d : device) : result device :=
  match buffers with
  | [] => Ok d
  | buffer :: rest => d' ← CUDA_CHECK (cudaFree d buffer); free_all rest d'
  end.

Definition destroy (this : TrtInt8Calibrator) (w : world) : result world :=
  d ← free_all (m_buffers this) (w_dev w); Ok (set_dev w d).

(** *** The calibration callbacks *)

Definition getBatchSize (this : TrtInt8Calibrator) : Z := mBatchSize this.

(** The body of the loop of [getBatch], from index [i] on, [n] times. *)
Fixpoint getBatch_loop (n i : nat) (this : TrtInt8Calibrator)
    (batch_ptrs : list string) (bindings : list N) (d : device)
  : result (list N * device) :=
  match n with
  | O => Ok (bindings, d)
  | S n' =>
      dst ← of_option (m_buffers this !! i) Undefined;
      src ← of_option (batch_ptrs !! i) Undefined;
      bytes ← of_option (mInputBytes this !! i) Undefined;
      count ← mul_int64 bytes (mBatchSize this);
      status ← cudaMemcpy d dst src (to_size_t count);
      d' ← CUDA_CHECK status;
      if decide (i < length bindings)%nat then
        getBatch_loop n' (S i) this batch_ptrs (<[i := dst]> bindings) d'
      else Fail Undefined
  end.

(** [getBatch(bindings, names, nbBindings)]: the return value, the
    object, the array [bindings] and the world afterwards. *)
Definition getBatch (this : TrtInt8Calibrator) (bindings : list N)
    (names : list string) (nbBindings : Z) (w : world)
  : result (bool * TrtInt8Calibrator * list N * world) :=
  stream ← of_option (mStream this) Undefined;
  let '(more, stream') := IBatchStream.next stream in
  let this' := set_mStream this stream' in
  if negb more then Ok (false, this', bindings, w)
  else
    let batch_ptrs := IBatchStream.getBatch stream' in
    '(bindings', d) ← getBatch_loop (Z.to_nat nbBindings) 0 this' batch_ptrs
                        bindings (w_dev w);
    Ok (true, this', bindings', set_dev w d).

(** [readCalibrationCache(length)]: the pointer returned, [length], and
    the object, whose [mCalibrationCache] now holds the file. *)
Definition readCalibrationCache (this : TrtInt8Calibrator) (w : world)
  : pointer * Z * TrtInt8Calibrator :=
  match open_read (w_fs w) (mCalibrationTableName this) with
  | None => (nullptr, 0, this)
  | Some content =>
      let length := Z.of_nat (String.length content) in
      (mCalibrationCache_data, length,
       set_mCalibrationCache this (take_bytes (Z.to_nat length) content))
  end.

(** What a pointer returned by the class gives access to. *)
Definition deref (this : TrtInt8Calibrator) (p : pointer) : option string :=
  match p with
  | nullptr => None
  | mCalibrationCache_data => Some (mCalibrationCache this)
  end.

(** [writeCalibrationCache(cache, length)]; [cache] points to the bytes
    given, and reading more of them than there are is undefined. *)
Definition writeCalibrationCache (this : TrtInt8Calibrator) (cache : string)
    (length : Z) (w : world) : result world :=
  let '(fo, fs) := open_write (w_fs w) (mCalibrationTableName this) in
  if of_open fo then
    if Z.of_nat (String.length cache) <? length then Fail Undefined
    else Ok (set_fs w (of_write fo (take_bytes (Z.to_nat length) cache) fs))
  else Ok (set_fs w fs).

(** *** The scale override transcoder *)

(** The loop [while (std::getline(fi, line)) { ... }] of [setScaleFile].
    [line], [tensorName] and [scaleStr] are declared before the loop
    and live across its iterations. *)
Fixpoint setScaleFile_loop (fuel : nat) (fi : istream)
    (line tensorName scaleStr : string) (fo : ofstream) (fs : filesystem)
  : result filesystem :=
  match fuel with
  | O => Fail OutOfFuel
  | S fuel' =>
      let '(fi, line) := getline fi line newline in
      if is_fail fi then Ok fs
      else
        let iline := istream_of line in
        let '(iline, tensorName) := getline iline tensorName ":" in
        let '(iline, scaleStr) := getline iline scaleStr ":" in
        if (String.length scaleStr =? 0)%nat then
          setScaleFile_loop fuel' fi line tensorName scaleStr fo
            (of_write fo (tensorName +:+ endl) fs)
        else
          match stof scaleStr with
          | StofValue fp =>
              let ieee754 := Float32.bits (Float32.div fp (Float32.of_Z 127)) in
              setScaleFile_loop fuel' fi line tensorName scaleStr fo
                (of_write fo (tensorName +:+ ": " +:+ hex_uint32 ieee754 +:+ endl) fs)
          | StofInvalidArgument => Fail (Thrown "invalid_argument")
          | StofOutOfRange => Fail (Thrown "out_of_range")
          | StofOtherForm => Fail NotModelled
          end
  end.

(** [setScaleFile(filename)]. Both streams are constructed before [fi]
    is tested. [fi] reads the file as it is once [fo] is open, which
    matters when both name the same file. *)
Definition setScaleFile (this : TrtInt8Calibrator) (filename : string) (w : world)
  : result world :=
  let fi := open_read (w_fs w) filename in
  let '(fo, fs) := open_write (w_fs w) (mCalibrationTableName this) in
  let w := set_fs w fs in
  match fi with
  | None =>
      Ok (cout w ("[ERROR ] Could not load user calibration scale file: " +:+ filename))
  | Some _ =>
      let w := cout w ("[INFO ] Reset calibration cache with scale file user provided: "
                       +:+ filename) in
      let content := default "" (fs_files fs !! filename) in
      fs' ← setScaleFile_loop (S (String.length content)) (istream_of content)
              "" "" "" fo fs;
      Ok (set_fs w fs')
  end.

(** *** The remaining accessors *)

Definition getAlgorithm (this : TrtInt8Calibrator) : CalibrationAlgoType :=
  mAlgo this.

(** [None]: the member was never given a value, the result is
    indeterminate. *)
Definition getQuantile (this : TrtInt8Calibrator) : option spec_float :=
  mQuantile this.

Definition getRegressionCutoff (this : TrtInt8Calibrator) : spec_float :=
  binary_normalize Float64.prec Float64.emax 1 0 false.

Definition readHistogramCache (this : TrtInt8Calibrator) : pointer := nullptr.

Definition writeHistogramCache (this : TrtInt8Calibrator) (ptr : string)
    (length : Z) : unit := tt.

(** *** The lifetime of an instance

    A call of a member function on the object, with its arguments, and
    its effect on the object and the world. *)
Inductive call :=
  | call_getBatchSize
  | call_getBatch (bindings : list N) (names : list string) (nbBindings : Z)
  | call_readCalibrationCache
  | call_writeCalibrationCache (cache : string) (length : Z)
  | call_setScaleFile (filename : string)
  | call_getAlgorithm
  | call_getQuantile
  | call_getRegressionCutoff
  | call_readHistogramCache
  | call_writeHistogramCache (ptr : string) (length : Z).

Definition invoke (c : call) (this : TrtInt8Calibrator) (w : world)
  : result (TrtInt8Calibrator * world) :=
  match c with
  | call_getBatch bindings names nbBindings =>
      '(_, this', _, w') ← getBatch this bindings names nbBindings w;
      Ok (this', w')
  | call_readCalibrationCache =>
      let '(_, _, this') := readCalibrationCache this w in Ok (this', w)
  | call_writeCalibrationCache cache length =>
      w' ← writeCalibrationCache this cache length w; Ok (this, w')
  | call_setScaleFile filename =>
      w' ← setScaleFile this filename w; Ok (this, w')
  | call_getBatchSize | call_getAlgorithm | call_getQuantile
  | call_getRegressionCutoff | call_readHistogramCache
  | call_writeHistogramCache _ _ => Ok (this, w)
  end.

(** The states an instance goes through, call after call. *)
Inductive lifetime : TrtInt8Calibrator * world -> TrtInt8Calibrator * world -> Prop :=
  | lifetime_here x : lifetime x x
  | lifetime_call x c y z :
      lifetime x y -> invoke c (fst y) (snd y) = Ok z -> lifetime x z.

(** *** Construction in either mode *)

Inductive construction :=
  | stream_fed (stream : Stream) (cacheFilename algo : string)
  | cache_replay (cacheFilename algo : string) (batchsize : Z)
      (quantile : option spec_float).

Definition construct (c : construction) (w : world)
  : result (TrtInt8Calibrator * world) :=
  match c with
  | stream_fed stream cacheFilename algo =>
      from_stream (Some stream) cacheFilename algo w
  | cache_replay cacheFilename algo batchsize quantile =>
      this ← from_cache cacheFilename algo batchsize quantile; Ok (this, w)
  end.

(** The algorithm key a construction is given. *)
Definition algorithm_key (c : construction) : string :=
  match c with
  | stream_fed _ _ algo => algo
  | cache_replay _ algo _ _ => algo
  end.

(** The batch size a construction is given: the stream's, or the
    argument. *)
Definition supplied_batch_size (c : construction) : Z :=
  match c with
  | stream_fed stream _ _ => IBatchStream.getBatchSize stream
  | cache_replay _ _ batchsize _ => batchsize
  end.

(** The members that are set at construction only. *)
Definition fixed_members (this : TrtInt8Calibrator) :=
  (m_buffers this, mInputBytes this, mQuantile this,
   mCalibrationTableName this, mAlgo this, mBatchSize this).

(** The copy iteration [i] of [getBatch] is to make. *)
Definition batch_copy (this : TrtInt8Calibrator) (batch_ptrs : list string)
    (i : nat) : option cuda_call :=
  dst ← m_buffers this !! i;
  src ← batch_ptrs !! i;
  bytes ← mInputBytes this !! i;
  Some (CudaMemcpyHtoD dst (take_bytes (Z.to_nat (bytes * mBatchSize this)) src)).

(** What iteration [i] of [getBatch] needs to go through: the [i]-th
    device buffer, host buffer and byte size exist, the byte count
    fits [int64_t], the host buffer has that many bytes and the device
    buffer that much capacity. *)
Definition copy_ready (this : TrtInt8Calibrator) (batch_ptrs : list string)
    (d : device) (i : nat) : Prop :=
  exists dst src bytes cap,
    m_buffers this !! i = Some dst /\ batch_ptrs !! i = Some src /\
    mInputBytes this !! i = Some bytes /\
    0 <= bytes * mBatchSize this < 2 ^ 63 /\
    bytes * mBatchSize this <= Z.of_nat (String.length src) /\
    capacities d !! dst = Some cap /\ bytes * mBatchSize this <= cap.

(** Device buffer [i] starts with the batch bytes of host buffer [i]. *)
Definition holds_batch (this : TrtInt8Calibrator) (batch_ptrs : list string)
    (d : device) (i : nat) : Prop :=
  exists dst src bytes b,
    m_buffers this !! i = Some dst /\ batch_ptrs !! i = Some src /\
    mInputBytes this !! i = Some bytes /\
    dev_heap d !! dst = Some b /\
    let count := Z.to_nat (bytes * mBatchSize this) in
    take_bytes count (db_data b) = take_bytes count src /\
    String.length (take_bytes count src) = count.

End Calibrator.

Arguments TrtInt8Calibrator Stream : clear implicits.
Arguments construction Stream : clear implicits.

(** ** The override file and the cache text, as the specification
    describes them *)

Fixpoint contains (c : ascii) (s : string) : bool :=
  match s with
  | EmptyString => false
  | String c' s' => (c' =? c)%char || contains c s'
  end.

(** A field of an override line: no colon and no line break in it. *)
Definition field (s : string) : Prop :=
  contains ":" s = false /\ contains newline s = false.

(** The text of an override file with one line [name:scale] per entry. *)
Fixpoint override_text (entries : list (string * string)) : string :=
  match entries with
  | [] => ""
  | (name, scale) :: rest => name +:+ ":" +:+ scale +:+ endl +:+ override_text rest
  end.

(** The cache line for an override line [name:scale]: the bare name when
    the scale field is empty; otherwise the name, a colon and a blank,
    and in hexadecimal the bit pattern of the scale divided by 127. *)
Inductive cache_line : string * string -> string -> Prop :=
  | cache_line_bare name :
      cache_line (name, "") (name +:+ endl)
  | cache_line_scale name scale fp :
      scale <> "" ->
      stof scale = StofValue fp ->
      cache_line (name, scale)
        (name +:+ ": "
         +:+ hex_uint32 (Float32.bits (Float32.div fp (Float32.of_Z 127)))
         +:+ endl).

Fixpoint concat_lines (lines : list string) : string :=
  match lines with
  | [] => ""
  | l :: rest => l +:+ concat_lines rest
  end.

(** ** Vocabulary for the further properties *)

(** An override file in general: a line is [name:scale], or a bare
    [name] with no colon in it. *)
Fixpoint override_lines (ls : list (string * option string)) : string :=
  match ls with
  | [] => ""
  | (name, Some scale) :: rest => name +:+ ":" +:+ scale +:+ endl +:+ override_lines rest
  | (name, None) :: rest => name +:+ endl +:+ override_lines rest
  end.

(** The scale field in force at each line: its own when the line has a
    colon, otherwise that of the line before, starting from [scaleStr]. *)
Fixpoint scales_in_force (scaleStr : string) (ls : list (string * option string))
  : list (string * string) :=
  match ls with
  | [] => []
  | (name, o) :: rest =>
      let scale := default scaleStr o in
      (name, scale) :: scales_in_force scale rest
  end.

(** Reading hexadecimal digits back, most significant first, on top of
    the value [v] read so far (as [strtoul(s, NULL, 16)] does). *)
Definition hex_value (c : ascii) : Z :=
  if isdigit c then code c - 48 else code c - 87.

Fixpoint unhex (v : Z) (s : string) : Z :=
  match s with
  | EmptyString => v
  | String c s' => unhex (16 * v + hex_value c) s'
  end.

Definition total (sizes : list Z) : Z := foldr Z.add 0 sizes.

(** Two file systems that differ at most in the file at [path]. *)
Definition same_but (path : string) (fs fs' : filesystem) : Prop :=
  fs_noread fs' = fs_noread fs /\ fs_nowrite fs' = fs_nowrite fs /\
  forall other, other <> path -> fs_files fs' !! other = fs_files fs !! other.

(** The [n] handles [cudaMalloc] hands out in a row, from [p] on. *)
Fixpoint handles (p : N) (n : nat) : list N :=
  match n with
  | O => []
  | S n' => p :: handles (N.succ p) n'
  end.

(** Every live buffer of the device was handed out before [dev_next]. *)
Definition heap_fresh (d : device) : Prop :=
  forall p, is_Some (dev_heap d !! p) -> (p < dev_next d)%N.

Section Vocabulary.

Context {Stream : Type} `{IBatchStream.t Stream}.

(** A runtime call that is a copy into one of the instance's buffers. *)
Definition own_copy (this : TrtInt8Calibrator Stream) (c : cuda_call) : Prop :=
  match c with
  | CudaMemcpyHtoD dst _ => dst ∈ m_buffers this
  | _ => False
  end.

End Vocabulary.

(** ** Sample inputs *)

Module Sample.

Fixpoint bytes_of (c : ascii) (n : nat) : string :=
  match n with
  | O => ""
  | S n' => String c (bytes_of c n')
  end.

(** Three inputs of 100, 50 and 25 bytes a sample, four samples a batch,
    two batches. *)
Definition batch (c : ascii) : list string :=
  [bytes_of c 400; bytes_of c 200; bytes_of c 100].

Definition stream : list_stream :=
  {| ls_bytes := [100; 50; 25]; ls_batch_size := 4; ls_current := [];
     ls_pending := [batch "a"; batch "b"] |}.

Definition exhausted : list_stream :=
  {| ls_bytes := [100; 50; 25]; ls_batch_size := 4; ls_current := [];
     ls_pending := [] |}.

Definition files : filesystem :=
  {| fs_files := {[ "calib.cache" := "TRT-8001-EntropyCalibration2" +:+ endl;
                    "scales.txt" := "convA:2.0" +:+ endl +:+ "convB:" +:+ endl;
                    "empty.cache" := "" ]};
     fs_noread := ∅; fs_nowrite := ∅ |}.

Definition gpu : device :=
  {| dev_heap := ∅; dev_next := 1%N; dev_free := 2 ^ 30; dev_trace := [] |}.

Definition w : world := {| w_fs := files; w_dev := gpu; w_out := "" |}.

(** A cache-replay instance on the cache file named. *)
Definition replay (cacheFilename : string) : TrtInt8Calibrator list_stream :=
  {| mStream := None; m_buffers := []; mInputBytes := [];
     mQuantile := Some (Float64.of_float default_quantile);
     mCalibrationCache := ""; mCalibrationTableName := cacheFilename;
     mAlgo := kENTROPY_CALIBRATION; mBatchSize := 4 |}.

(** The stream-fed instance on [stream], and the world once it is
    constructed in [w]. *)
Definition calibrator : TrtInt8Calibrator list_stream :=
  {| mStream := Some stream; m_buffers := [1; 2; 3]%N;
     mInputBytes := [100; 50; 25]; mQuantile := None;
     mCalibrationCache := ""; mCalibrationTableName := "calib.cache";
     mAlgo := kENTROPY_CALIBRATION_2; mBatchSize := 4 |}.

Definition gpu_ready : device :=
  {| dev_heap := {[ 1%N := {| db_cap := 400; db_data := "" |};
                    2%N := {| db_cap := 200; db_data := "" |};
                    3%N := {| db_cap := 100; db_data := "" |} ]};
     dev_next := 4%N; dev_free := 2 ^ 30 - 700;
     dev_trace := [CudaMalloc 1 400; CudaMalloc 2 200; CudaMalloc 3 100] |}.

Definition w_ready : world := {| w_fs := files; w_dev := gpu_ready; w_out := "" |}.

(** The state after one more call, if the call returns. *)
Definition after (c : call) (x : TrtInt8Calibrator list_stream * world)
  : TrtInt8Calibrator list_stream * world :=
  match invoke c x.1 x.2 with
  | Ok y => y
  | Fail _ => x
  end.

Definition names : list string := ["input0"; "input1"; "input2"].

(** After construction and two calls of [getBatch]. *)
Definition two_batches : TrtInt8Calibrator list_stream * world :=
  after (call_getBatch [0; 0; 0]%N names 3)
    (after (call_getBatch [0; 0; 0]%N names 3) (calibrator, w_ready)).

End Sample.

(** ** Sample inputs for the further properties *)

Module Edge.

(** Override files: one with a line without a colon, one with a scale
    that is no number, one whose last line has no line break. *)
Definition files : filesystem :=
  {| fs_files := {[ "calib.cache" := "TRT-8001-EntropyCalibration2" +:+ endl;
                    "bare.txt" := "convA:2.0" +:+ endl +:+ "convB" +:+ endl;
                    "bad.txt" := "convA:2.0" +:+ endl +:+ "convB:abc" +:+ endl
                                 +:+ "convC:1.0" +:+ endl;
                    "open.txt" := "convB:" +:+ endl +:+ "convA:2.0" ]};
     fs_noread := ∅; fs_nowrite := ∅ |}.

Definition w : world := {| w_fs := files; w_dev := Sample.gpu; w_out := "" |}.

(** The same files, the cache file being read-only. *)
Definition read_only : world :=
  {| w_fs := {| fs_files := fs_files files; fs_noread := ∅;
                fs_nowrite := {[ "calib.cache" ]} |};
     w_dev := Sample.gpu; w_out := "" |}.

(** Override files whose scale fields take the forms [std::stof] reads:
    a value that rounds up to the least normal number, signs, an
    integer, blanks in front and text behind, zeros, a fraction with no
    integer part, an exponent; and a file with a scale out of range. *)
Definition forms : filesystem :=
  {| fs_files := {[ "calib.cache" := "";
                    "forms.txt" := "a:1.17549435e-38" +:+ endl +:+ "b:-2.0" +:+ endl
                                   +:+ "c:127" +:+ endl +:+ "d:63.5" +:+ endl
                                   +:+ "e:  1.27e2xyz" +:+ endl +:+ "f:0" +:+ endl
                                   +:+ "g:-0" +:+ endl +:+ "h:.254E+3" +:+ endl
                                   +:+ "i:0.1" +:+ endl +:+ "j:3.4028235e38" +:+ endl
                                   +:+ "k:+1" +:+ endl;
                    "range.txt" := "convA:2.0" +:+ endl +:+ "convB:1e39" +:+ endl ]};
     fs_noread := ∅; fs_nowrite := ∅ |}.

Definition w_forms : world := {| w_fs := forms; w_dev := Sample.gpu; w_out := "" |}.

(** A cache-replay instance after a transcoding and a cache write. *)
Definition replayed : TrtInt8Calibrator list_stream * world :=
  Sample.after (call_writeCalibrationCache "scales" 6)
    (Sample.after (call_setScaleFile "scales.txt") (Sample.replay "calib.cache", Sample.w)).

End Edge.

(** * Properties *)

Lemma take_bytes_all (s : string) : take_bytes (String.length s) s = s.
Proof. induction s as [|c s IH]; simpl; [reflexivity | now rewrite IH]. Qed.

Section Properties.

Context {Stream : Type} `{IBatchStream.t Stream}.

Implicit Types (this : TrtInt8Calibrator Stream) (w : world).

(** ** What no member function changes *)

Lemma cudaMemcpy_capacities d dst src count d' :
  cudaMemcpy d dst src count = Ok (Some d') -> capacities d' = capacities d.
Proof.
  unfold cudaMemcpy, capacities.
  destruct (_ <? count); [discriminate |].
  destruct (dev_heap d !! dst) as [b|] eqn:Hb; [| discriminate].
  destruct (count <=? db_cap b); [| discriminate].
  intros [= <-]; simpl. rewrite fmap_insert; simpl.
  apply insert_id. now rewrite lookup_fmap, Hb.
Qed.

Lemma getBatch_loop_capacities n : forall i this ptrs bindings d bindings' d',
  getBatch_loop n i this ptrs bindings d = Ok (bindings', d') ->
  capacities d' = capacities d.
Proof.
  induction n as [|n IH]; simpl; intros i this ptrs bindings d bindings' d' Hrun.
  - now injection Hrun as _ <-.
  - destruct (m_buffers this !! i) as [dst|]; [simpl in Hrun | discriminate].
    destruct (ptrs !! i) as [src|]; [simpl in Hrun | discriminate].
    destruct (mInputBytes this !! i) as [bytes|]; [simpl in Hrun | discriminate].
    destruct (mul_int64 _ _) as [count|]; [simpl in Hrun | discriminate].
    destruct (cudaMemcpy _ _ _ _) as [[d1|]|] eqn:Hcp; try discriminate.
    simpl in Hrun. destruct (decide _); [| discriminate].
    apply IH in Hrun. rewrite Hrun. eauto using cudaMemcpy_capacities.
Qed.

Lemma of_write_dev fo data fs w : w_dev (set_fs w (of_write fo data fs)) = w_dev w.
Proof. reflexivity. Qed.

Lemma invoke_fixed c this w this' w' :
  invoke c this w = Ok (this', w') ->
  fixed_members this' = fixed_members this /\
  capacities (w_dev w') = capacities (w_dev w).
Proof.
  destruct c; simpl; intros Hrun; try (injection Hrun as <- <-; now split).
  - unfold getBatch in Hrun.
    destruct (mStream this) as [s|]; [simpl in Hrun | discriminate].
    destruct (IBatchStream.next s) as [more s'].
    destruct more; simpl in Hrun.
    + destruct (getBatch_loop _ _ _ _ _ _) as [[b d]|] eqn:Hloop; [| discriminate].
      simpl in Hrun. injection Hrun as <- <-. split; [reflexivity |].
      simpl. eauto using getBatch_loop_capacities.
    + injection Hrun as <- <-. now split.
  - unfold readCalibrationCache in Hrun.
    destruct (open_read _ _); injection Hrun as <- <-; now split.
  - unfold writeCalibrationCache in Hrun.
    destruct (open_write _ _) as [fo fs]. destruct (of_open fo).
    + destruct (_ <? length); [discriminate |]. simpl in Hrun.
      injection Hrun as <- <-. now split.
    + simpl in Hrun. injection Hrun as <- <-. now split.
  - unfold setScaleFile in Hrun.
    destruct (open_write _ _) as [fo fs]. destruct (open_read _ _).
    + destruct (setScaleFile_loop _ _ _ _ _ _ _); [| discriminate].
      simpl in Hrun. injection Hrun as <- <-. now split.
    + simpl in Hrun. injection Hrun as <- <-. now split.
Qed.

Lemma lifetime_fixed x y :
  lifetime x y ->
  fixed_members (fst y) = fixed_members (fst x) /\
  capacities (w_dev (snd y)) = capacities (w_dev (snd x)).
Proof.
  induction 1 as [x | x c [this w] [this' w'] _ [IHm IHc] Hcall]; [now split |].
  apply invoke_fixed in Hcall as [Hm Hc]. simpl in *. split; congruence.
Qed.

(** ** Reading and writing the cache *)

Lemma open_read_absent fs path : fs_files fs !! path = None -> open_read fs path = None.
Proof. intros Hnone. unfold open_read. now destruct (decide _). Qed.

Lemma readCalibrationCache_unopened this w :
  open_read (w_fs w) (mCalibrationTableName this) = None ->
  readCalibrationCache this w = (nullptr, 0, this).
Proof. intros Hnone. unfold readCalibrationCache. now rewrite Hnone. Qed.

Lemma readCalibrationCache_opened this w content :
  open_read (w_fs w) (mCalibrationTableName this) = Some content ->
  readCalibrationCache this w =
    (mCalibrationCache_data, Z.of_nat (String.length content),
     set_mCalibrationCache this content).
Proof.
  intros Hsome. unfold readCalibrationCache. rewrite Hsome.
  now rewrite Nat2Z.id, take_bytes_all.
Qed.

(** C5. When the cache file does not exist, [readCalibrationCache] sets
    [length] to 0 and returns the null pointer; the call returns
    normally and changes neither the object nor the world (nothing is
    printed, nothing aborts). *)
Theorem readCalibrationCache_missing this w :
  fs_files (w_fs w) !! mCalibrationTableName this = None ->
  readCalibrationCache this w = (nullptr, 0, this) /\
  invoke call_readCalibrationCache this w = Ok (this, w).
Proof.
  intros Hnone%open_read_absent%readCalibrationCache_unopened.
  unfold invoke. now rewrite Hnone.
Qed.

(** C10. When the cache file exists and is empty, [readCalibrationCache]
    sets [length] to 0 and returns a pointer that is not null, the
    address of the empty member buffer; on an absent file the length is
    0 as well, so that only the pointer tells the two apart. *)
Theorem readCalibrationCache_empty this w w_absent :
  open_read (w_fs w) (mCalibrationTableName this) = Some "" ->
  fs_files (w_fs w_absent) !! mCalibrationTableName this = None ->
  exists this',
    readCalibrationCache this w = (mCalibrationCache_data, 0, this') /\
    deref this' mCalibrationCache_data = Some "" /\
    readCalibrationCache this w_absent = (nullptr, 0, this) /\
    mCalibrationCache_data <> nullptr.
Proof.
  intros Hopen%readCalibrationCache_opened
         Habsent%open_read_absent%readCalibrationCache_unopened.
  eexists. split; [exact Hopen |]. now repeat split.
Qed.

(** C4. Writing a cache of [L] bytes and reading it back: provided the
    cache file can be opened for writing and for reading, the write
    leaves exactly those bytes in the file, whatever it held before,
    and the read returns [length = L] and a pointer to the same [L]
    bytes. *)
Theorem write_then_read_cache this w (cache : string) :
  mCalibrationTableName this ∉ fs_nowrite (w_fs w) ->
  mCalibrationTableName this ∉ fs_noread (w_fs w) ->
  let L := Z.of_nat (String.length cache) in
  exists w' p this',
    writeCalibrationCache this cache L w = Ok w' /\
    fs_files (w_fs w') !! mCalibrationTableName this = Some cache /\
    readCalibrationCache this w' = (p, L, this') /\
    deref this' p = Some cache.
Proof.
  intros Hwrite Hread L.
  assert (Hfile : writeCalibrationCache this cache L w =
            Ok (set_fs w (set_files (w_fs w)
                  (<[mCalibrationTableName this := cache]> (fs_files (w_fs w)))))).
  { unfold writeCalibrationCache, open_write. rewrite decide_False by assumption.
    simpl. unfold L. rewrite (proj2 (Z.ltb_ge _ _)) by lia.
    unfold of_write; simpl. rewrite Nat2Z.id, take_bytes_all.
    now rewrite alter_insert_eq. }
  eexists _, mCalibrationCache_data, (set_mCalibrationCache this cache).
  split; [exact Hfile |]. simpl. split; [apply lookup_insert_eq |].
  split; [| reflexivity]. apply readCalibrationCache_opened.
  unfold open_read; simpl. rewrite decide_False by assumption.
  apply lookup_insert_eq.
Qed.

(** ** Construction and what stays fixed afterwards *)

Lemma from_cache_Ok cacheFilename algo batchsize quantile a :
  STR2CAT_MAPPING !! algo = Some a ->
  from_cache (Stream := Stream) cacheFilename algo batchsize quantile =
    Ok {| mStream := None; m_buffers := []; mInputBytes := [];
          mQuantile := Some (Float64.of_float (default default_quantile quantile));
          mCalibrationCache := "";
          mCalibrationTableName := cacheFilename; mAlgo := a;
          mBatchSize := batchsize |}.
Proof. intros Ha. unfold from_cache. now rewrite Ha. Qed.

(** What a successful construction sets the fixed members to. *)
Lemma construct_members (c : construction Stream) w this w' :
  construct c w = Ok (this, w') ->
  STR2CAT_MAPPING !! algorithm_key c = Some (mAlgo this) /\
  mBatchSize this = supplied_batch_size c /\
  mQuantile this =
    match c with
    | stream_fed _ _ _ => None
    | cache_replay _ _ _ quantile =>
        Some (Float64.of_float (default default_quantile quantile))
    end.
Proof.
  destruct c as [stream file algo | file algo batchsize quantile]; simpl.
  - unfold from_stream; simpl.
    destruct (STR2CAT_MAPPING !! algo) as [a|]; [simpl | discriminate].
    destruct (allocate _ _ _ _) as [[buffers d]|]; [simpl | discriminate].
    now intros [= <- <-].
  - unfold from_cache.
    destruct (STR2CAT_MAPPING !! algo) as [a|]; [simpl | discriminate].
    now intros [= <- <-].
Qed.

Lemma lifetime_members x y :
  lifetime x y ->
  mAlgo (fst y) = mAlgo (fst x) /\ mBatchSize (fst y) = mBatchSize (fst x) /\
  mQuantile (fst y) = mQuantile (fst x) /\ m_buffers (fst y) = m_buffers (fst x).
Proof.
  intros [Hfixed _]%lifetime_fixed. unfold fixed_members in Hfixed.
  injection Hfixed as -> _ -> _ -> ->. now repeat split.
Qed.

(** C6. For each of the keys legacy, entropy, entropy_2 and minmax:
    construction in cache-replay mode succeeds, and after any
    successful construction with that key, in either mode,
    [getAlgorithm] returns the matching selector at every point of the
    instance's lifetime. *)
Theorem getAlgorithm_matches_key (key : string) (sel : CalibrationAlgoType) w :
  In (key, sel) [("legacy", kLEGACY_CALIBRATION); ("entropy", kENTROPY_CALIBRATION);
                 ("entropy_2", kENTROPY_CALIBRATION_2); ("minmax", kMINMAX_CALIBRATION)] ->
  (forall cacheFilename batchsize quantile, exists this,
      construct (cache_replay cacheFilename key batchsize quantile) w = Ok (this, w) /\
      getAlgorithm this = sel) /\
  (forall (c : construction Stream) x y,
      algorithm_key c = key -> construct c w = Ok x -> lifetime x y ->
      getAlgorithm (fst y) = sel).
Proof.
  intros Hkey.
  assert (Hsel : STR2CAT_MAPPING !! key = Some sel).
  { simpl in Hkey.
    destruct Hkey as [[= <- <-] | [[= <- <-] | [[= <- <-] | [[= <- <-] | []]]]];
      reflexivity. }
  split.
  - intros file batchsize quantile. simpl.
    rewrite (from_cache_Ok _ _ _ _ _ Hsel). simpl. now eexists.
  - intros c [this w'] y <- Hc Hlife.
    apply construct_members in Hc as (Ha & _).
    apply lifetime_members in Hlife as (Halgo & _).
    unfold getAlgorithm. simpl in Halgo. congruence.
Qed.

(** C8. After a successful construction, [getBatchSize] returns the
    batch size the construction was given (the stream's, or the
    argument), whatever member functions have been called since, and
    however many batches [getBatch] has consumed. *)
Theorem getBatchSize_fixed (c : construction Stream) w x y :
  construct c w = Ok x -> lifetime x y ->
  getBatchSize (fst y) = supplied_batch_size c.
Proof.
  destruct x as [this w']. intros (_ & Hb & _)%construct_members Hlife.
  apply lifetime_members in Hlife as (_ & Hsize & _).
  unfold getBatchSize. simpl in Hsize. congruence.
Qed.

(** C9. Only the cache-replay constructor gives the quantile member a
    value (its argument, 0.9999 by default, as a [double]). After a
    stream-fed construction the member holds no value at any point of
    the instance's lifetime, and [getQuantile] returns an indeterminate
    result. *)
Theorem getQuantile_by_mode w x y :
  (forall stream cacheFilename algo,
      construct (stream_fed stream cacheFilename algo) w = Ok x -> lifetime x y ->
      getQuantile (fst y) = None) /\
  (forall cacheFilename algo batchsize quantile,
      construct (cache_replay (Stream := Stream) cacheFilename algo batchsize quantile) w
        = Ok x ->
      lifetime x y ->
      getQuantile (fst y) =
        Some (Float64.of_float
                (match quantile with
                 | Some q => q
                 | None => S754_finite false 16775538 (-24)
                 end))).
Proof.
  destruct x as [this w'].
  split; intros *; intros (_ & _ & Hq)%construct_members Hlife;
    apply lifetime_members in Hlife as (_ & _ & Hsame & _);
    unfold getQuantile; simpl in Hsame; rewrite Hsame, Hq; [reflexivity |].
  now destruct quantile.
Qed.

(** ** The device buffers *)

Lemma mul_int64_Ok a b p : mul_int64 a b = Ok p -> p = a * b /\ a * b < 2 ^ 63.
Proof.
  unfold mul_int64. destruct (_ && _) eqn:Hrange; [| discriminate].
  intros [= <-]. apply andb_prop in Hrange as [_ Hlt%Z.ltb_lt]. now split.
Qed.

Lemma to_size_t_small z : 0 <= z < 2 ^ 63 -> to_size_t z = z.
Proof. intros Hz. unfold to_size_t. apply Z.mod_small. lia. Qed.

Lemma cudaMalloc_Some d size p d' :
  cudaMalloc d size = Some (p, d') ->
  p = dev_next d /\ dev_next d' = N.succ p /\
  capacities d' = <[p := size]> (capacities d).
Proof.
  unfold cudaMalloc. destruct (size <=? dev_free d); [| discriminate].
  intros [= <- <-]. unfold capacities; simpl. now rewrite fmap_insert.
Qed.

(** The buffers [allocate] appends: one per byte size, each with the
    capacity asked for; the buffers that were there keep theirs. *)
Lemma allocate_Ok batch sizes : forall buffers d buffers' d',
  allocate batch sizes buffers d = Ok (buffers', d') ->
  Forall (fun bytes => 0 <= batch * bytes) sizes ->
  exists new,
    buffers' = buffers ++ new /\
    Forall2 (fun p bytes => capacities d' !! p = Some (batch * bytes)) new sizes /\
    (dev_next d <= dev_next d')%N /\
    (forall q, (q < dev_next d)%N -> capacities d' !! q = capacities d !! q).
Proof.
  induction sizes as [|bytes sizes IH]; simpl; intros buffers d buffers' d' Hrun Hpos.
  - injection Hrun as <- <-. exists []. rewrite app_nil_r. repeat split; [constructor | lia].
  - apply Forall_cons in Hpos as [Hbytes Hpos].
    destruct (mul_int64 batch bytes) as [size|] eqn:Hmul; [simpl in Hrun | discriminate].
    apply mul_int64_Ok in Hmul as [-> Hlt].
    rewrite to_size_t_small in Hrun by lia.
    destruct (cudaMalloc d _) as [[p d1]|] eqn:Hmalloc; [simpl in Hrun | discriminate].
    apply cudaMalloc_Some in Hmalloc as (-> & Hnext & Hcaps).
    destruct (IH _ _ _ _ Hrun Hpos) as (new & -> & Hnew & Hle & Hold).
    exists (dev_next d :: new). rewrite <- app_assoc. split; [reflexivity |].
    split; [| split; [lia |]].
    + constructor; [| assumption].
      rewrite Hold by lia. rewrite Hcaps. apply lookup_insert_eq.
    + intros q Hq. rewrite Hold by lia. rewrite Hcaps.
      apply lookup_insert_ne. lia.
Qed.

(** C7. After a successful stream-fed construction from a stream whose
    batch size and byte sizes are not negative, at every point of the
    instance's lifetime: there are as many device buffers as the
    stream declares byte sizes, they are the buffers the constructor
    allocated, and the [i]-th has capacity batch size times the [i]-th
    byte size. *)
Theorem device_buffers_fixed (stream : Stream) cacheFilename algo w x y :
  0 <= IBatchStream.getBatchSize stream ->
  Forall (fun bytes => 0 <= bytes) (IBatchStream.bytesPerBatch stream) ->
  construct (stream_fed stream cacheFilename algo) w = Ok x ->
  lifetime x y ->
  length (m_buffers (fst y)) = length (IBatchStream.bytesPerBatch stream) /\
  m_buffers (fst y) = m_buffers (fst x) /\
  forall i bytes,
    IBatchStream.bytesPerBatch stream !! i = Some bytes ->
    exists p,
      m_buffers (fst y) !! i = Some p /\
      capacities (w_dev (snd y)) !! p = Some (IBatchStream.getBatchSize stream * bytes).
Proof.
  intros Hbatch Hsizes Hc Hlife. destruct x as [this w'].
  pose proof (lifetime_fixed _ _ Hlife) as [_ Hcaps].
  apply lifetime_members in Hlife as (_ & _ & _ & Hbufs).
  simpl in Hc, Hcaps, Hbufs. unfold from_stream in Hc; simpl in Hc.
  destruct (STR2CAT_MAPPING !! algo) as [a|]; [simpl in Hc | discriminate].
  destruct (allocate _ _ _ _) as [[buffers d]|] eqn:Halloc; [simpl in Hc | discriminate].
  injection Hc as <- <-. simpl in Hcaps, Hbufs.
  apply allocate_Ok in Halloc as (new & -> & Hnew & _).
  2:{ eapply Forall_impl; [exact Hsizes | intros bytes Hb; now apply Z.mul_nonneg_nonneg]. }
  simpl in Hbufs. rewrite Hbufs, Hcaps.
  split; [eauto using Forall2_length |]. split; [reflexivity |].
  intros i bytes Hi.
  destruct (Forall2_lookup_r _ _ _ _ _ Hnew Hi) as (p & Hp & Hcap). eauto.
Qed.

(** ** Feeding batches *)

Lemma take_bytes_length n (s : string) :
  (n <= String.length s)%nat -> String.length (take_bytes n s) = n.
Proof.
  revert s. induction n as [|n IH]; intros [|c s]; simpl; intros Hn; try lia.
  now rewrite IH by lia.
Qed.

Lemma take_bytes_app n (s t : string) :
  String.length s = n -> take_bytes n (s +:+ t) = s.
Proof.
  intros <-. induction s as [|c s IH]; simpl; [now destruct t | now rewrite IH].
Qed.

Lemma cudaMemcpy_Ok d dst src count cap :
  0 <= count <= Z.of_nat (String.length src) ->
  capacities d !! dst = Some cap -> count <= cap ->
  exists b,
    dev_heap d !! dst = Some b /\
    let data := take_bytes (Z.to_nat count) src in
    cudaMemcpy d dst src count =
      Ok (Some {| dev_heap :=
                    <[dst := {| db_cap := db_cap b;
                                db_data := data +:+ drop_bytes (Z.to_nat count) (db_data b) |}]>
                      (dev_heap d);
                  dev_next := dev_next d; dev_free := dev_free d;
                  dev_trace := dev_trace d ++ [CudaMemcpyHtoD dst data] |}).
Proof.
  intros Hcount Hcap Hle. unfold capacities in Hcap.
  apply lookup_fmap_Some in Hcap as (b & <- & Hb). exists b. split; [assumption |].
  unfold cudaMemcpy. rewrite (proj2 (Z.ltb_ge _ _)) by lia. rewrite Hb.
  now rewrite (proj2 (Z.leb_le _ _)) by assumption.
Qed.

Lemma copy_ready_capacities this ptrs d d' i :
  capacities d' = capacities d -> copy_ready this ptrs d i -> copy_ready this ptrs d' i.
Proof. unfold copy_ready. now intros ->. Qed.

(** The loop of [getBatch] when every iteration is ready: it goes
    through, makes the copies of the indices [i .. i+n) in order and
    nothing else, and sets exactly these entries of [bindings]. *)
Lemma getBatch_loop_Ok n : forall i this ptrs bindings d,
  (i + n <= length bindings)%nat ->
  (forall j, (i <= j < i + n)%nat -> copy_ready this ptrs d j) ->
  exists bindings' d' copies,
    getBatch_loop n i this ptrs bindings d = Ok (bindings', d') /\
    dev_trace d' = dev_trace d ++ copies /\
    Forall2 (fun j c => batch_copy this ptrs j = Some c) (seq i n) copies /\
    length bindings' = length bindings /\
    (forall j, (i <= j < i + n)%nat -> bindings' !! j = m_buffers this !! j) /\
    (forall j, ~ (i <= j < i + n)%nat -> bindings' !! j = bindings !! j) /\
    (forall p, (forall j, (i <= j < i + n)%nat -> m_buffers this !! j <> Some p) ->
               dev_heap d' !! p = dev_heap d !! p) /\
    (forall j, (i <= j < i + n)%nat ->
               (forall k, (j < k < i + n)%nat -> m_buffers this !! k <> m_buffers this !! j) ->
               holds_batch this ptrs d' j).
Proof.
  induction n as [|n IH]; intros i this ptrs bindings d Hlen Hready.
  - exists bindings, d, []. simpl. rewrite app_nil_r.
    repeat split; [constructor | intros; lia | intros; lia].
  - assert (Hi : copy_ready this ptrs d i) by (apply Hready; lia).
    destruct Hi as (dst & src & bytes & cap & Hdst & Hsrc & Hbytes & Hfit & Hhost & Hcap & Hle).
    destruct (cudaMemcpy_Ok d dst src (bytes * mBatchSize this) cap)
      as (b & Hb & Hcopy); [lia | assumption | assumption |].
    simpl in Hcopy. simpl getBatch_loop. rewrite Hdst, Hsrc, Hbytes; simpl.
    unfold mul_int64.
    rewrite (proj2 (andb_true_iff _ _)) by (split; [apply Z.leb_le | apply Z.ltb_lt]; lia).
    simpl. rewrite to_size_t_small by lia. rewrite Hcopy; simpl.
    rewrite decide_True by lia.
    match goal with |- context [getBatch_loop n (S i) this ptrs ?bs ?dd] =>
      destruct (IH (S i) this ptrs bs dd) as (bindings' & d' & copies & Hrun & Htrace & Hcopies & Hlen' & Hset & Hkeep
                                                  & Hframe & Hholds)
    end.
    { rewrite length_insert. lia. }
    { intros j Hj. eapply copy_ready_capacities; [| apply Hready; lia].
      unfold capacities; simpl. rewrite fmap_insert; simpl.
      apply insert_id. now rewrite lookup_fmap, Hb. }
    exists bindings', d', (CudaMemcpyHtoD dst (take_bytes (Z.to_nat (bytes * mBatchSize this)) src) :: copies).
    split; [exact Hrun |]. simpl in Htrace. rewrite Htrace, <- app_assoc.
    split; [reflexivity |]. split.
    { simpl. constructor; [| assumption].
      unfold batch_copy. now rewrite Hdst, Hsrc, Hbytes. }
    rewrite Hlen', length_insert. split; [reflexivity |].
    split; [| split; [| split]].
    + intros j Hj. destruct (decide (j = i)) as [-> | Hne].
      * rewrite Hkeep by lia. rewrite Hdst. apply list_lookup_insert_eq. lia.
      * apply Hset. lia.
    + intros j Hj. rewrite Hkeep by lia. apply list_lookup_insert_ne. lia.
    + intros p Hp. rewrite Hframe by (intros j Hj; apply Hp; lia). simpl.
      apply lookup_insert_ne. intros ->. apply (Hp i); [lia | assumption].
    + intros j Hj Hlast. destruct (decide (j = i)) as [-> | Hne].
      * exists dst, src, bytes. eexists. split; [assumption |].
        split; [assumption |]. split; [assumption |]. split.
        { rewrite Hframe; [apply lookup_insert_eq |].
          intros k Hk Heq. apply (Hlast k); [lia | congruence]. }
        simpl.
        assert (Hn : String.length (take_bytes (Z.to_nat (bytes * mBatchSize this)) src)
                     = Z.to_nat (bytes * mBatchSize this))
          by (apply take_bytes_length; lia).
        split; [now apply take_bytes_app | exact Hn].
      * apply Hholds; [lia |]. intros k Hk. apply Hlast. lia.
Qed.

(** C3. A call of [getBatch] on an instance that has a stream. When the
    stream reports exhaustion the call returns false, and the world
    (hence the device: no copy is made) and [bindings] are as before.
    Otherwise, when [nbBindings] is within the array and every index
    below it is ready to be copied, the call returns true; the runtime
    calls it made are exactly the copies of the indices [0 ..
    nbBindings) in order, each of byte size times batch size bytes of
    the host buffer into the device buffer of the same index;
    [bindings] holds the device buffers at these indices and is
    unchanged elsewhere; and each device buffer, when the buffers are
    distinct, starts with the bytes copied. *)
Theorem getBatch_copies this bindings names nbBindings w stream more stream' :
  mStream this = Some stream ->
  IBatchStream.next stream = (more, stream') ->
  let this' := set_mStream this stream' in
  let batch_ptrs := IBatchStream.getBatch stream' in
  let n := Z.to_nat nbBindings in
  (more = false ->
     getBatch this bindings names nbBindings w = Ok (false, this', bindings, w)) /\
  (more = true ->
     (n <= length bindings)%nat ->
     (forall i, (i < n)%nat -> copy_ready this batch_ptrs (w_dev w) i) ->
     exists bindings' d copies,
       getBatch this bindings names nbBindings w = Ok (true, this', bindings', set_dev w d) /\
       dev_trace d = dev_trace (w_dev w) ++ copies /\
       Forall2 (fun i c => batch_copy this batch_ptrs i = Some c) (seq 0 n) copies /\
       length bindings' = length bindings /\
       (forall i, (i < n)%nat -> bindings' !! i = m_buffers this !! i) /\
       (forall i, (n <= i)%nat -> bindings' !! i = bindings !! i) /\
       (NoDup (m_buffers this) ->
        forall i, (i < n)%nat -> holds_batch this batch_ptrs d i)).
Proof.
  intros Hstream Hnext this' batch_ptrs n. unfold getBatch.
  rewrite Hstream; simpl. rewrite Hnext. split; intros ->; simpl; [reflexivity |].
  intros Hlen Hready. fold this' batch_ptrs n.
  destruct (getBatch_loop_Ok n 0 this' batch_ptrs bindings (w_dev w))
    as (bindings' & d & copies & Hrun & Htrace & Hcopies & Hlen' & Hset & Hkeep & _ & Hholds).
  { simpl. lia. }
  { intros j Hj. apply Hready. lia. }
  exists bindings', d, copies. rewrite Hrun; simpl.
  split; [reflexivity |]. split; [assumption |]. split; [assumption |].
  split; [assumption |]. split; [| split].
  - intros i Hi. apply Hset. lia.
  - intros i Hi. apply Hkeep. lia.
  - intros Hnodup i Hi. apply (Hholds i); [lia |].
    intros k Hk Heq. simpl in Heq.
    destruct (m_buffers this !! i) as [p|] eqn:Hp.
    + assert (k = i) by (eapply NoDup_lookup; eauto). lia.
    + apply lookup_ge_None in Hp. apply lookup_ge_None in Heq. 
      destruct (Hready i Hi) as (dst & _ & _ & _ & Hdst & _).
      apply lookup_lt_Some in Hdst. lia.
Qed.

(** ** The scale override transcoder *)

Lemma scan_stops delim (a b : string) :
  contains delim a = false -> scan delim (a +:+ String delim b) = (a, Some b).
Proof.
  induction a as [|c a IH]; simpl.
  - now rewrite Ascii.eqb_refl.
  - intros [Hc Ha]%orb_false_elim. rewrite Hc, (IH Ha). reflexivity.
Qed.

Lemma scan_to_end delim (a : string) :
  contains delim a = false -> scan delim a = (a, None).
Proof.
  induction a as [|c a IH]; simpl; [reflexivity |].
  intros [Hc Ha]%orb_false_elim. now rewrite Hc, (IH Ha).
Qed.

Lemma scan_shorter delim : forall (s fld rest : string),
  scan delim s = (fld, Some rest) -> (String.length rest < String.length s)%nat.
Proof.
  induction s as [|c s IH]; simpl; intros fld rest; [discriminate |].
  destruct (c =? delim)%char.
  - intros [= <- <-]. lia.
  - destruct (scan delim s) as [f r] eqn:Hs. intros [= <- ->].
    specialize (IH _ _ eq_refl). simpl. lia.
Qed.

Lemma scan_field_empty delim : forall (s fld : string),
  scan delim s = (fld, None) -> String.length fld = String.length s.
Proof.
  induction s as [|c s IH]; simpl; intros fld; [now intros [= <-] |].
  destruct (c =? delim)%char; [discriminate |].
  destruct (scan delim s) as [f r] eqn:Hs. intros [= <- ->].
  simpl. now rewrite (IH _ eq_refl).
Qed.

Lemma contains_app c (a b : string) :
  contains c (a +:+ b) = contains c a || contains c b.
Proof. induction a as [|c' a IH]; simpl; [reflexivity | now rewrite IH, orb_assoc]. Qed.

(** The loop never stops for lack of steps when given more of them
    than the input has characters left. *)
Lemma setScaleFile_loop_fuel fuel : forall fi line tensorName scaleStr fo fs,
  (String.length (is_buf fi) < fuel)%nat ->
  setScaleFile_loop fuel fi line tensorName scaleStr fo fs <> Fail OutOfFuel.
Proof.
  induction fuel as [|fuel IH]; intros fi line tensorName scaleStr fo fs Hfuel; [lia |].
  simpl. destruct (getline fi line newline) as [fi' line'] eqn:Hline.
  destruct (is_fail fi') eqn:Hfail; [discriminate |].
  assert (Hshort : (String.length (is_buf fi') < fuel)%nat).
  { unfold getline in Hline. destruct (is_good fi).
    - destruct (scan newline (is_buf fi)) as [fld [rest|]] eqn:Hscan.
      + injection Hline as <- <-. simpl. apply scan_shorter in Hscan. lia.
      + injection Hline as <- <-. simpl in *.
        apply scan_field_empty in Hscan. apply Nat.eqb_neq in Hfail. lia.
    - injection Hline as <- <-. discriminate. }
  destruct (getline (istream_of line') tensorName ":") as [iline tensorName'].
  destruct (getline iline scaleStr ":") as [iline' scaleStr'].
  destruct (String.length scaleStr' =? 0)%nat; [now apply IH |].
  destruct (stof scaleStr'); try discriminate. now apply IH.
Qed.

Lemma append_assoc (a b c : string) : (a +:+ b) +:+ c = a +:+ b +:+ c.
Proof.
  induction a as [|x a IH]; [reflexivity |].
  change (String x ((a +:+ b) +:+ c) = String x (a +:+ b +:+ c)). now rewrite IH.
Qed.

Lemma override_line_assoc (name scale rest : string) :
  name +:+ ":" +:+ scale +:+ endl +:+ rest
  = (name +:+ ":" +:+ scale) +:+ String newline rest.
Proof. now rewrite append_assoc. Qed.

Lemma getline_good (s : string) str delim :
  getline (istream_of s) str delim =
    match scan delim s with
    | (fld, Some rest) => (istream_of rest, fld)
    | (fld, None) =>
        ({| is_buf := ""; is_eof := true; is_fail := (String.length fld =? 0)%nat |}, fld)
    end.
Proof. reflexivity. Qed.

(** One line [name:scale] read by the three [getline]s of the loop
    body: whatever the variables held before, [tensorName] and
    [scaleStr] are the two fields afterwards. *)
Lemma getline_fields (name scale rest line tensorName scaleStr : string) :
  field name -> field scale ->
  getline (istream_of (name +:+ ":" +:+ scale +:+ endl +:+ rest)) line newline
    = (istream_of rest, name +:+ ":" +:+ scale) /\
  getline (istream_of (name +:+ ":" +:+ scale)) tensorName ":"
    = (istream_of scale, name) /\
  exists iline, getline (istream_of scale) scaleStr ":" = (iline, scale).
Proof.
  intros [Hname1 Hname2] [Hscale1 Hscale2].
  assert (Hline : contains newline (name +:+ ":" +:+ scale) = false).
  { rewrite contains_app, Hname2. exact Hscale2. }
  rewrite !getline_good, override_line_assoc.
  rewrite (scan_stops _ _ _ Hline).
  change (name +:+ ":" +:+ scale) with (name +:+ String ":" scale).
  rewrite (scan_stops _ _ _ Hname1), (scan_to_end _ _ Hscale1).
  repeat split. now eexists.
Qed.

Lemma length_append (a b : string) :
  String.length (a +:+ b) = (String.length a + String.length b)%nat.
Proof.
  induction a as [|x a IH]; [reflexivity |].
  change (S (String.length (a +:+ b)) = S (String.length a + String.length b)).
  now rewrite IH.
Qed.

Lemma append_empty_r (a : string) : a +:+ "" = a.
Proof.
  induction a as [|x a IH]; [reflexivity |].
  change (String x (a +:+ "") = String x a). now rewrite IH.
Qed.

Lemma of_write_open fo data fs acc :
  of_open fo = true -> fs_files fs !! of_path fo = Some acc ->
  of_write fo data fs = set_files fs (<[of_path fo := acc +:+ data]> (fs_files fs)).
Proof.
  intros Hopen Hacc. unfold of_write. rewrite Hopen. f_equal.
  apply map_eq. intros path. destruct (decide (of_path fo = path)) as [<- | Hne].
  - now rewrite lookup_alter_eq, lookup_insert_eq, Hacc.
  - now rewrite lookup_alter_ne, lookup_insert_ne.
Qed.

Lemma set_files_twice fs files files' :
  set_files (set_files fs files) files' = set_files fs files'.
Proof. reflexivity. Qed.

(** The loop over a file of lines [name:scale]: the cache file receives
    one cache line per override line, after what it already held. *)
Lemma setScaleFile_loop_lines entries : forall outs fuel line tensorName scaleStr fo fs acc,
  Forall (fun e => field e.1 /\ field e.2) entries ->
  Forall2 cache_line entries outs ->
  of_open fo = true ->
  fs_files fs !! of_path fo = Some acc ->
  (String.length (override_text entries) < fuel)%nat ->
  setScaleFile_loop fuel (istream_of (override_text entries)) line tensorName scaleStr fo fs
  = Ok (set_files fs (<[of_path fo := acc +:+ concat_lines outs]> (fs_files fs))).
Proof.
  induction entries as [|[name scale] entries IH];
    intros outs fuel line tensorName scaleStr fo fs acc Hfields Hlines Hopen Hacc Hfuel.
  - apply Forall2_nil_inv_l in Hlines as ->.
    destruct fuel as [|fuel]; [simpl in Hfuel; lia |]. simpl.
    rewrite append_empty_r, insert_id by assumption. now destruct fs.
  - apply Forall2_cons_inv_l in Hlines as (out & outs' & Hline & Hlines & ->).
    apply Forall_cons in Hfields as [[Hname Hscale] Hfields]. simpl in Hname, Hscale.
    destruct fuel as [|fuel]; [lia |].
    change (override_text ((name, scale) :: entries))
      with (name +:+ ":" +:+ scale +:+ endl +:+ override_text entries) in *.
    destruct (getline_fields name scale (override_text entries) line tensorName scaleStr
                Hname Hscale) as (Hg1 & Hg2 & iline & Hg3).
    assert (Hfuel' : (String.length (override_text entries) < fuel)%nat).
    { rewrite !length_append in Hfuel. unfold endl in Hfuel.
      cbn [String.length] in Hfuel. lia. }
    cbn [setScaleFile_loop]. rewrite Hg1. cbn [is_fail istream_of].
    rewrite Hg2, Hg3.
    change (concat_lines (out :: outs')) with (out +:+ concat_lines outs').
    inversion Hline as [name' Hn Ho | name' scale' fp Hne Hstof Hn Ho]; subst.
    + cbn [String.length Nat.eqb].
      rewrite (of_write_open _ _ _ acc Hopen Hacc).
      rewrite (IH outs' fuel _ _ _ fo _ (acc +:+ name +:+ endl) Hfields Hlines Hopen);
        [| apply lookup_insert_eq | assumption].
      cbn [fs_files set_files]. now rewrite insert_insert_eq, !append_assoc.
    + destruct scale as [|c scale]; [congruence |]. cbn [String.length Nat.eqb].
      rewrite Hstof. cbv zeta.
      rewrite (of_write_open _ _ _ acc Hopen Hacc).
      erewrite (IH outs' fuel _ _ _ fo _ _ Hfields Hlines Hopen);
        [| apply lookup_insert_eq | assumption].
      cbn [fs_files set_files]. now rewrite insert_insert_eq, !append_assoc.
Qed.

(** Lines that all have a colon. The override file holds one line
    [name:scale] per entry, it opens for reading, the cache file opens
    for writing and is another file. Then [setScaleFile] returns, and the
    cache file consists of
    one line per override line, in order: the bare name when the scale
    field is empty; otherwise, for a scale field that [std::stof]
    converts, the name, [": "] and the hexadecimal digits of the bit
    pattern, read as a 32-bit unsigned integer, of the binary32
    quotient of the converted value by 127. *)
Theorem setScaleFile_transcodes this filename w entries outs :
  filename <> mCalibrationTableName this ->
  open_read (w_fs w) filename = Some (override_text entries) ->
  mCalibrationTableName this ∉ fs_nowrite (w_fs w) ->
  Forall (fun e => field e.1 /\ field e.2) entries ->
  Forall2 cache_line entries outs ->
  exists w',
    setScaleFile this filename w = Ok w' /\
    fs_files (w_fs w') =
      <[mCalibrationTableName this := concat_lines outs]> (fs_files (w_fs w)).
Proof.
  intros Hother Hread Hwrite Hfields Hlines.
  unfold setScaleFile, open_write. rewrite Hread, decide_False by assumption.
  cbn [set_fs set_files fs_files w_fs cout].
  assert (Hfile : fs_files (w_fs w) !! filename = Some (override_text entries)).
  { unfold open_read in Hread. now destruct (decide _). }
  rewrite lookup_insert_ne, Hfile by congruence. cbn [default from_option]. unfold id.
  erewrite setScaleFile_loop_lines;
    [| eassumption | eassumption | reflexivity | apply lookup_insert_eq | lia].
  eexists. split; [reflexivity |]. cbn. now rewrite insert_insert_eq.
Qed.

(** When the override file does not open, [setScaleFile] has already
    opened the cache file for writing: the cache file is left empty,
    whatever it held, and the diagnostic is printed. *)
Lemma setScaleFile_unopened this filename w :
  open_read (w_fs w) filename = None ->
  mCalibrationTableName this ∉ fs_nowrite (w_fs w) ->
  setScaleFile this filename w =
    Ok (cout (set_fs w (set_files (w_fs w)
                          (<[mCalibrationTableName this := ""]> (fs_files (w_fs w)))))
          ("[ERROR ] Could not load user calibration scale file: " +:+ filename)).
Proof.
  intros Hread Hwrite. unfold setScaleFile, open_write.
  now rewrite Hread, decide_False by assumption.
Qed.

End Properties.

(** * The sample inputs, evaluated *)

Lemma lifetime_after (c : call) (x : TrtInt8Calibrator list_stream * world) :
  lifetime x (Sample.after c x).
Proof.
  unfold Sample.after. destruct (invoke c x.1 x.2) as [y|] eqn:Hcall.
  - eapply lifetime_call; [apply lifetime_here | exact Hcall].
  - apply lifetime_here.
Qed.

Lemma lifetime_trans {Stream} `{IBatchStream.t Stream}
    (x y z : TrtInt8Calibrator Stream * world) :
  lifetime x y -> lifetime y z -> lifetime x z.
Proof. intros Hxy Hyz. induction Hyz; eauto using lifetime_call. Qed.

(** Constructing on the sample stream gives the sample instance: three
    buffers of 400, 200 and 100 bytes. *)
Example construct_sample :
  construct (stream_fed Sample.stream "calib.cache" "entropy_2") Sample.w
  = Ok (Sample.calibrator, Sample.w_ready).
Proof. vm_compute. reflexivity. Qed.

Example sample_capacities :
  (fun p => capacities (w_dev Sample.w_ready) !! p) <$> m_buffers Sample.calibrator
  = [Some 400; Some 200; Some 100].
Proof. vm_compute. reflexivity. Qed.

(** Two batches go through, the third call reports exhaustion; the
    device has seen the three allocations and six copies. *)
Example sample_two_batches_then_exhaustion :
  let '(this, w) := Sample.two_batches in
  length (dev_trace (w_dev w)) = 9%nat /\
  exists this', getBatch this [0; 0; 0]%N Sample.names 3 w = Ok (false, this', [0; 0; 0]%N, w).
Proof. vm_compute. split; [reflexivity | eexists; reflexivity]. Qed.

(** The file [convA:2.0], [convB:] becomes [convA: 3c810204], [convB]. *)
Example setScaleFile_sample :
  exists w',
    setScaleFile (Sample.replay "calib.cache") "scales.txt" Sample.w = Ok w' /\
    fs_files (w_fs w') !! "calib.cache"
    = Some ("convA: 3c810204" +:+ endl +:+ "convB" +:+ endl).
Proof. eexists. split; vm_compute; reflexivity. Qed.

(** [3c810204] is the binary32 nearest to 2/127: as a float it is
    [8454660 * 2^-29], within half a unit in the last place of 2/127. *)
Example scale_2_over_127 :
  Float32.div (Float32.of_Z 2) (Float32.of_Z 127) = S754_finite false 8454660 (-29) /\
  Float32.bits (S754_finite false 8454660 (-29)) = 0x3c810204 /\
  2 * Z.abs (2 * 2 ^ 29 - 127 * 8454660) <= 127.
Proof. vm_compute. repeat split; discriminate. Qed.

(** The default quantile is the binary32 nearest to 0.9999. *)
Example default_quantile_value :
  default_quantile = S754_finite false 16775538 (-24) /\
  2 * Z.abs (9999 * 2 ^ 24 - 10000 * 16775538) <= 10000.
Proof. vm_compute. repeat split; discriminate. Qed.

(** A line without a colon leaves [scaleStr] as the line before set it:
    after [convA:2.0], the line [convB] is given the scale of [convA]. *)
Example bare_name_takes_previous_scale :
  setScaleFile_loop 20 (istream_of ("convA:2.0" +:+ endl +:+ "convB" +:+ endl)) "" "" ""
    {| of_path := "calib.cache"; of_open := true |}
    {| fs_files := {[ "calib.cache" := "" ]}; fs_noread := ∅; fs_nowrite := ∅ |}
  = Ok {| fs_files := {[ "calib.cache" :=
                          "convA: 3c810204" +:+ endl +:+ "convB: 3c810204" +:+ endl ]};
          fs_noread := ∅; fs_nowrite := ∅ |}.
Proof. vm_compute. reflexivity. Qed.

(** C1. The override file [missing.txt] does not exist and the cache file
    holds a calibration table: [setScaleFile] prints the diagnostic and
    returns, and the cache file is empty afterwards. *)
Theorem setScaleFile_missing_source_empties_cache :
  open_read (w_fs Sample.w) "missing.txt" = None /\
  fs_files (w_fs Sample.w) !! "calib.cache"
    = Some ("TRT-8001-EntropyCalibration2" +:+ endl) /\
  exists w',
    setScaleFile (Sample.replay "calib.cache") "missing.txt" Sample.w = Ok w' /\
    w_out w' = "[ERROR ] Could not load user calibration scale file: missing.txt" +:+ endl /\
    fs_files (w_fs w') !! "calib.cache" = Some "".
Proof.
  split; [reflexivity |]. split; [reflexivity |].
  eexists. split; [apply setScaleFile_unopened; [reflexivity | apply not_elem_of_empty] |].
  split; reflexivity.
Qed.

(** C2. The override file [bare.txt] holds the lines [convA:2.0] and
    [convB]. The second line has no scale, and the cache file should get
    the bare name [convB]; [setScaleFile] writes [convB: 3c810204], the
    scale of the line before, because [scaleStr] is declared outside the
    loop and the [getline] that finds no second field does not clear
    it. *)
Theorem setScaleFile_bare_line_gets_scale_of_line_before :
  fs_files (w_fs Edge.w) !! "bare.txt" = Some ("convA:2.0" +:+ endl +:+ "convB" +:+ endl) /\
  exists w',
    setScaleFile (Sample.replay "calib.cache") "bare.txt" Edge.w = Ok w' /\
    fs_files (w_fs w') !! "calib.cache"
    = Some ("convA: 3c810204" +:+ endl +:+ "convB: 3c810204" +:+ endl).
Proof. split; [reflexivity |]. eexists. split; vm_compute; reflexivity. Qed.

(** [std::stof] on the forms a scale field can take; the bit patterns
    are those of the C library's [strtof]. *)
Example stof_forms :
  (fun s => match stof s with
            | StofValue f => Some (hex_uint32 (Float32.bits f))
            | _ => None
            end)
  <$> ["1.17549435e-38"; "-2.0"; "127"; "63.5"; "  1.27e2xyz"; "0"; "-0"; ".254E+3";
       "0.1"; "3.4028235e38"; "+1"; "2.0"]
  = Some <$> ["800000"; "c0000000"; "42fe0000"; "427e0000"; "42fe0000"; "0"; "80000000";
              "437e0000"; "3dcccccd"; "7f7fffff"; "3f800000"; "40000000"].
Proof. vm_compute. reflexivity. Qed.

(** What [std::stof] refuses: no number at all, a value beyond the
    largest [float], and values that are inexact and tiny after
    rounding, even one that rounds to the least normal number. *)
Example stof_refusals :
  stof <$> [""; "abc"; "."; "-"; "  "; "e5"]
  = [StofInvalidArgument; StofInvalidArgument; StofInvalidArgument; StofInvalidArgument;
     StofInvalidArgument; StofInvalidArgument] /\
  stof <$> ["1e39"; "3.4028236e38"; "1e-46"; "1e-38"; "1.1754943e-38"; "1.1754943157e-38"]
  = [StofOutOfRange; StofOutOfRange; StofOutOfRange; StofOutOfRange; StofOutOfRange;
     StofOutOfRange] /\
  stof "1.175494316e-38" = StofValue (S754_finite false 8388608 (-149)).
Proof. vm_compute. repeat split; reflexivity. Qed.

(** The override file [forms.txt], transcoded. *)
Example setScaleFile_forms :
  exists w',
    setScaleFile (Sample.replay "calib.cache") "forms.txt" Edge.w_forms = Ok w' /\
    fs_files (w_fs w') !! "calib.cache"
    = Some ("a: 10204" +:+ endl +:+ "b: bc810204" +:+ endl +:+ "c: 3f800000" +:+ endl
            +:+ "d: 3f000000" +:+ endl +:+ "e: 3f800000" +:+ endl +:+ "f: 0" +:+ endl
            +:+ "g: 80000000" +:+ endl +:+ "h: 40000000" +:+ endl
            +:+ "i: 3a4e69a0" +:+ endl +:+ "j: 7c010204" +:+ endl
            +:+ "k: 3c010204" +:+ endl).
Proof. eexists. split; vm_compute; reflexivity. Qed.

(** * The theorems at the sample inputs *)

Lemma setScaleFile_transcodes_witness :
  exists w',
    setScaleFile (Sample.replay "calib.cache") "scales.txt" Sample.w = Ok w' /\
    fs_files (w_fs w') =
      <["calib.cache" := concat_lines ["convA: 3c810204" +:+ endl; "convB" +:+ endl]]>
        (fs_files (w_fs Sample.w)).
Proof.
  apply (setScaleFile_transcodes (Sample.replay "calib.cache") "scales.txt" Sample.w
           [("convA", "2.0"); ("convB", "")]).
  - discriminate.
  - reflexivity.
  - apply not_elem_of_empty.
  - repeat constructor.
  - constructor; [| constructor; [| constructor]].
    + apply (cache_line_scale "convA" "2.0" (S754_finite false 8388608 (-22)));
        [discriminate | reflexivity].
    + apply cache_line_bare.
Defined.

Lemma getBatch_copies_witness :
  exists bindings' d copies,
    getBatch Sample.calibrator [0; 0; 0]%N Sample.names 3 Sample.w_ready
    = Ok (true,
          set_mStream Sample.calibrator
            {| ls_bytes := [100; 50; 25]; ls_batch_size := 4;
               ls_current := Sample.batch "a"; ls_pending := [Sample.batch "b"] |},
          bindings', set_dev Sample.w_ready d) /\
    dev_trace d = dev_trace (w_dev Sample.w_ready) ++ copies /\
    Forall2 (fun i c => batch_copy Sample.calibrator (Sample.batch "a") i = Some c)
      (seq 0 3) copies /\
    length bindings' = 3%nat /\
    (forall i, (i < 3)%nat -> bindings' !! i = m_buffers Sample.calibrator !! i) /\
    (forall i, (3 <= i)%nat -> bindings' !! i = [0; 0; 0]%N !! i) /\
    (NoDup (m_buffers Sample.calibrator) ->
     forall i, (i < 3)%nat -> holds_batch Sample.calibrator (Sample.batch "a") d i).
Proof.
  refine (proj2 (getBatch_copies Sample.calibrator [0; 0; 0]%N Sample.names 3 Sample.w_ready
                   Sample.stream true _ eq_refl eq_refl) eq_refl _ _).
  - simpl. lia.
  - intros i Hi. change (Z.to_nat 3) with 3%nat in Hi.
    destruct i as [|[|[|i]]]; [| | | lia].
    + exists 1%N, (Sample.bytes_of "a" 400), 100, 400.
      repeat split; try reflexivity; vm_compute; discriminate.
    + exists 2%N, (Sample.bytes_of "a" 200), 50, 200.
      repeat split; try reflexivity; vm_compute; discriminate.
    + exists 3%N, (Sample.bytes_of "a" 100), 25, 100.
      repeat split; try reflexivity; vm_compute; discriminate.
Defined.

Lemma write_then_read_cache_witness :
  exists w' p this',
    writeCalibrationCache (Sample.replay "calib.cache") "scales" 6 Sample.w = Ok w' /\
    fs_files (w_fs w') !! "calib.cache" = Some "scales" /\
    readCalibrationCache (Sample.replay "calib.cache") w' = (p, 6, this') /\
    deref this' p = Some "scales".
Proof.
  apply (write_then_read_cache (Sample.replay "calib.cache") Sample.w "scales");
    apply not_elem_of_empty.
Defined.

Lemma readCalibrationCache_missing_witness :
  readCalibrationCache (Sample.replay "absent.cache") Sample.w
    = (nullptr, 0, Sample.replay "absent.cache") /\
  invoke call_readCalibrationCache (Sample.replay "absent.cache") Sample.w
    = Ok (Sample.replay "absent.cache", Sample.w).
Proof.
  apply (readCalibrationCache_missing (Sample.replay "absent.cache") Sample.w).
  reflexivity.
Defined.

Lemma readCalibrationCache_empty_witness :
  exists this',
    readCalibrationCache (Sample.replay "empty.cache") Sample.w
      = (mCalibrationCache_data, 0, this') /\
    deref this' mCalibrationCache_data = Some "" /\
    readCalibrationCache (Sample.replay "empty.cache")
      {| w_fs := {| fs_files := ∅; fs_noread := ∅; fs_nowrite := ∅ |};
         w_dev := Sample.gpu; w_out := "" |}
      = (nullptr, 0, Sample.replay "empty.cache") /\
    mCalibrationCache_data <> nullptr.
Proof.
  apply (readCalibrationCache_empty (Sample.replay "empty.cache") Sample.w);
    reflexivity.
Defined.

Lemma getAlgorithm_matches_key_witness :
  (forall cacheFilename batchsize quantile, exists this,
      construct (Stream := list_stream)
        (cache_replay cacheFilename "minmax" batchsize quantile) Sample.w
        = Ok (this, Sample.w) /\
      getAlgorithm this = kMINMAX_CALIBRATION) /\
  (forall (c : construction list_stream) x y,
      algorithm_key c = "minmax" -> construct c Sample.w = Ok x -> lifetime x y ->
      getAlgorithm (fst y) = kMINMAX_CALIBRATION).
Proof.
  apply (getAlgorithm_matches_key "minmax" kMINMAX_CALIBRATION Sample.w).
  simpl. tauto.
Defined.

Lemma getBatchSize_fixed_witness : getBatchSize (fst Sample.two_batches) = 4.
Proof.
  refine (getBatchSize_fixed (stream_fed Sample.stream "calib.cache" "entropy_2")
            Sample.w (Sample.calibrator, Sample.w_ready) Sample.two_batches _ _).
  - vm_compute. reflexivity.
  - eapply lifetime_trans; apply lifetime_after.
Defined.

Lemma getQuantile_by_mode_witness : getQuantile (fst Sample.two_batches) = None.
Proof.
  apply (proj1 (getQuantile_by_mode Sample.w (Sample.calibrator, Sample.w_ready)
                  Sample.two_batches) Sample.stream "calib.cache" "entropy_2").
  - vm_compute. reflexivity.
  - eapply lifetime_trans; apply lifetime_after.
Defined.

Lemma device_buffers_fixed_witness :
  length (m_buffers (fst Sample.two_batches)) = 3%nat /\
  m_buffers (fst Sample.two_batches) = [1; 2; 3]%N /\
  forall i bytes,
    [100; 50; 25] !! i = Some bytes ->
    exists p,
      m_buffers (fst Sample.two_batches) !! i = Some p /\
      capacities (w_dev (snd Sample.two_batches)) !! p = Some (4 * bytes).
Proof.
  refine (device_buffers_fixed Sample.stream "calib.cache" "entropy_2" Sample.w
            (Sample.calibrator, Sample.w_ready) Sample.two_batches _ _ _ _).
  - simpl. lia.
  - repeat constructor; lia.
  - vm_compute. reflexivity.
  - eapply lifetime_trans; apply lifetime_after.
Defined.

(** * Further properties *)

Section Further.

Context {Stream : Type} `{IBatchStream.t Stream}.

Implicit Types (this : TrtInt8Calibrator Stream) (w : world).

(** ** What an instance does to the device *)

Lemma cudaMemcpy_Some d dst src count d' :
  cudaMemcpy d dst src count = Ok (Some d') ->
  exists b data,
    dev_heap d !! dst = Some b /\
    d' = {| dev_heap := <[dst := {| db_cap := db_cap b; db_data := data |}]> (dev_heap d);
            dev_next := dev_next d; dev_free := dev_free d;
            dev_trace := dev_trace d ++ [CudaMemcpyHtoD dst (take_bytes (Z.to_nat count) src)] |}.
Proof.
  unfold cudaMemcpy. destruct (_ <? count); [discriminate |].
  destruct (dev_heap d !! dst) as [b|]; [| discriminate].
  destruct (count <=? db_cap b); [| discriminate].
  intros [= <-]. now eexists _, _.
Qed.

(** A run of the loop of [getBatch] that returns made one copy per
    iteration, each into a buffer of the instance, and nothing else. *)
Lemma getBatch_loop_device n : forall i this ptrs bindings d bindings' d',
  getBatch_loop n i this ptrs bindings d = Ok (bindings', d') ->
  exists copies,
    dev_trace d' = dev_trace d ++ copies /\
    length copies = n /\ Forall (own_copy this) copies /\
    dev_free d' = dev_free d /\ dev_next d' = dev_next d /\
    (forall p, p ∉ m_buffers this -> dev_heap d' !! p = dev_heap d !! p) /\
    (forall p, is_Some (dev_heap d' !! p) <-> is_Some (dev_heap d !! p)).
Proof.
  induction n as [|n IH]; simpl; intros i this ptrs bindings d bindings' d' Hrun.
  - injection Hrun as _ <-. exists []. rewrite app_nil_r. now repeat split.
  - destruct (m_buffers this !! i) as [dst|] eqn:Hdst; [simpl in Hrun | discriminate].
    destruct (ptrs !! i) as [src|]; [simpl in Hrun | discriminate].
    destruct (mInputBytes this !! i) as [bytes|]; [simpl in Hrun | discriminate].
    destruct (mul_int64 _ _) as [count|]; [simpl in Hrun | discriminate].
    destruct (cudaMemcpy _ _ _ _) as [[d1|]|] eqn:Hcp; try discriminate.
    simpl in Hrun. destruct (decide _); [| discriminate].
    apply cudaMemcpy_Some in Hcp as (b & data & Hb & ->).
    apply IH in Hrun as (copies & Htrace & Hlen & Hown & Hfree & Hnext & Helse & Hlive).
    simpl in *. eexists (_ :: copies). rewrite Htrace, <- app_assoc.
    split; [reflexivity |]. split; [simpl; lia |]. split.
    { constructor; [| assumption]. simpl. eapply list_elem_of_lookup_2. exact Hdst. }
    split; [assumption |]. split; [assumption |]. split.
    + intros p Hp. rewrite Helse by assumption. apply lookup_insert_ne.
      intros ->. apply Hp. eapply list_elem_of_lookup_2. exact Hdst.
    + intros p. rewrite Hlive. destruct (decide (dst = p)) as [<- | Hne].
      * rewrite lookup_insert_eq, Hb. split; eauto.
      * now rewrite lookup_insert_ne.
Qed.

(** One call of a member function, on the device. *)
Lemma invoke_device c this w this' w' :
  invoke c this w = Ok (this', w') ->
  exists copies,
    dev_trace (w_dev w') = dev_trace (w_dev w) ++ copies /\
    Forall (own_copy this) copies /\
    dev_free (w_dev w') = dev_free (w_dev w) /\
    dev_next (w_dev w') = dev_next (w_dev w) /\
    (forall p, p ∉ m_buffers this -> dev_heap (w_dev w') !! p = dev_heap (w_dev w) !! p) /\
    (forall p, is_Some (dev_heap (w_dev w') !! p) <-> is_Some (dev_heap (w_dev w) !! p)).
Proof.
  assert (Hsame : forall d, exists copies : list cuda_call,
             dev_trace d = dev_trace d ++ copies /\ Forall (own_copy this) copies /\
             dev_free d = dev_free d /\ dev_next d = dev_next d /\
             (forall p, p ∉ m_buffers this -> dev_heap d !! p = dev_heap d !! p) /\
             (forall p, is_Some (dev_heap d !! p) <-> is_Some (dev_heap d !! p))).
  { intros d. exists []. rewrite app_nil_r. now repeat split. }
  destruct c; simpl; intros Hrun; try (injection Hrun as <- <-; apply Hsame).
  - unfold getBatch in Hrun.
    destruct (mStream this) as [s|]; [simpl in Hrun | discriminate].
    destruct (IBatchStream.next s) as [more s'].
    destruct more; simpl in Hrun.
    + destruct (getBatch_loop _ _ _ _ _ _) as [[b d]|] eqn:Hloop; [| discriminate].
      simpl in Hrun. injection Hrun as <- <-.
      apply getBatch_loop_device in Hloop
        as (copies & Htrace & _ & Hown & Hfree & Hnext & Helse & Hlive).
      exists copies.
      exact (conj Htrace (conj Hown (conj Hfree (conj Hnext (conj Helse Hlive))))).
    + injection Hrun as <- <-. apply Hsame.
  - unfold readCalibrationCache in Hrun.
    destruct (open_read _ _); injection Hrun as <- <-; apply Hsame.
  - unfold writeCalibrationCache in Hrun.
    destruct (open_write _ _) as [fo fs]. destruct (of_open fo).
    + destruct (_ <? length); [discriminate |]. simpl in Hrun.
      injection Hrun as <- <-. apply Hsame.
    + simpl in Hrun. injection Hrun as <- <-. apply Hsame.
  - unfold setScaleFile in Hrun.
    destruct (open_write _ _) as [fo fs]. destruct (open_read _ _).
    + destruct (setScaleFile_loop _ _ _ _ _ _ _); [| discriminate].
      simpl in Hrun. injection Hrun as <- <-. apply Hsame.
    + simpl in Hrun. injection Hrun as <- <-. apply Hsame.
Qed.

Lemma lifetime_device x y :
  lifetime x y ->
  exists copies,
    dev_trace (w_dev (snd y)) = dev_trace (w_dev (snd x)) ++ copies /\
    Forall (own_copy (fst x)) copies /\
    dev_free (w_dev (snd y)) = dev_free (w_dev (snd x)) /\
    dev_next (w_dev (snd y)) = dev_next (w_dev (snd x)) /\
    (forall p, p ∉ m_buffers (fst x) ->
               dev_heap (w_dev (snd y)) !! p = dev_heap (w_dev (snd x)) !! p) /\
    (forall p, is_Some (dev_heap (w_dev (snd y)) !! p)
               <-> is_Some (dev_heap (w_dev (snd x)) !! p)).
Proof.
  induction 1 as [x | x c [this w] [this' w'] Hlife IH Hcall].
  - exists []. rewrite app_nil_r. now repeat split.
  - destruct IH as (copies & Htrace & Hown & Hfree & Hnext & Helse & Hlive).
    apply lifetime_members in Hlife as (_ & _ & _ & Hbufs).
    apply invoke_device in Hcall
      as (copies' & Htrace' & Hown' & Hfree' & Hnext' & Helse' & Hlive').
    simpl in *. exists (copies ++ copies').
    rewrite Htrace', Htrace, <- app_assoc. split; [reflexivity |]. split.
    { apply Forall_app. split; [assumption |].
      eapply Forall_impl; [exact Hown' |]. intros [] Hc; simpl in *; congruence. }
    split; [congruence |]. split; [congruence |]. split.
    + intros p Hp. rewrite Helse' by congruence. now apply Helse.
    + intros p. now rewrite Hlive'.
Qed.

(** During the lifetime of an instance the only calls it makes to the
    CUDA runtime are host-to-device copies into its own buffers: it
    allocates nothing, frees nothing, the free memory stays what it was,
    and every other device buffer keeps its contents. *)
Theorem lifetime_only_copies_into_own_buffers x y :
  lifetime x y ->
  exists copies,
    dev_trace (w_dev (snd y)) = dev_trace (w_dev (snd x)) ++ copies /\
    Forall (own_copy (fst x)) copies /\
    dev_free (w_dev (snd y)) = dev_free (w_dev (snd x)) /\
    (forall p, p ∉ m_buffers (fst x) ->
               dev_heap (w_dev (snd y)) !! p = dev_heap (w_dev (snd x)) !! p).
Proof.
  intros (copies & Htrace & Hown & Hfree & _ & Helse & _)%lifetime_device.
  exists copies. now repeat split.
Qed.

(** ** Allocation and release *)

Lemma elem_of_handles n : forall p q,
  q ∈ handles p n <-> (p <= q < p + N.of_nat n)%N.
Proof.
  induction n as [|n IH]; intros p q; simpl.
  - rewrite elem_of_nil. lia.
  - rewrite elem_of_cons, IH. lia.
Qed.

Lemma NoDup_handles n : forall p, NoDup (handles p n).
Proof.
  induction n as [|n IH]; intros p; simpl; constructor; [| apply IH].
  rewrite elem_of_handles. lia.
Qed.

Lemma length_handles n : forall p, length (handles p n) = n.
Proof. induction n as [|n IH]; intros p; simpl; [reflexivity | now rewrite IH]. Qed.

Lemma total_cons (x : Z) (l : list Z) : total (x :: l) = x + total l.
Proof. reflexivity. Qed.

(** What [allocate] does to the device: it hands out the next handles in
    a row, one per byte size, takes their sizes from the free memory and
    touches no other buffer. *)
Lemma allocate_layout batch sizes : forall buffers d buffers' d',
  allocate batch sizes buffers d = Ok (buffers', d') ->
  Forall (fun bytes => 0 <= batch * bytes) sizes ->
  let new := handles (dev_next d) (length sizes) in
  buffers' = buffers ++ new /\
  dev_next d' = (dev_next d + N.of_nat (length sizes))%N /\
  dev_free d' = dev_free d - total (Z.mul batch <$> sizes) /\
  dev_trace d' = dev_trace d ++ zip_with CudaMalloc new (Z.mul batch <$> sizes) /\
  (forall q, q ∉ new -> dev_heap d' !! q = dev_heap d !! q) /\
  Forall2 (fun p bytes => capacities d' !! p = Some (batch * bytes)) new sizes.
Proof.
  induction sizes as [|bytes sizes IH]; intros buffers d buffers' d' Hrun Hpos;
    simpl in Hrun.
  - injection Hrun as <- <-. simpl. rewrite !app_nil_r, N.add_0_r.
    change (total []) with 0. rewrite Z.sub_0_r. repeat split. constructor.
  - apply Forall_cons in Hpos as [Hbytes Hpos].
    destruct (mul_int64 batch bytes) as [size|] eqn:Hmul; [simpl in Hrun | discriminate].
    apply mul_int64_Ok in Hmul as [-> Hlt].
    rewrite to_size_t_small in Hrun by lia.
    unfold cudaMalloc in Hrun.
    destruct (batch * bytes <=? dev_free d); [simpl in Hrun | discriminate].
    apply IH in Hrun as (-> & Hnext & Hfree & Htrace & Helse & Hcaps); [| assumption].
    simpl in Hnext, Hfree, Htrace, Helse, Hcaps.
    rewrite fmap_cons, total_cons. cbn [length handles zip_with].
    rewrite <- app_assoc. split; [reflexivity |].
    split; [lia |]. split; [lia |].
    split; [now rewrite Htrace, <- app_assoc |]. split.
    + intros q [Hq Hnew]%not_elem_of_cons. rewrite Helse by assumption.
      now apply lookup_insert_ne.
    + constructor; [| assumption]. unfold capacities. rewrite lookup_fmap, Helse.
      * now rewrite lookup_insert_eq.
      * rewrite elem_of_handles. lia.
Qed.

(** [allocate] goes through when the sizes fit and the device has room
    for their sum. *)
Lemma allocate_succeeds batch sizes : forall buffers d,
  Forall (fun bytes => 0 <= batch * bytes < 2 ^ 63) sizes ->
  total (Z.mul batch <$> sizes) <= dev_free d ->
  exists buffers' d', allocate batch sizes buffers d = Ok (buffers', d').
Proof.
  induction sizes as [|bytes sizes IH]; intros buffers d Hfit Hroom; [simpl; eauto |].
  apply Forall_cons in Hfit as [Hbytes Hfit].
  assert (Hrest : 0 <= total (Z.mul batch <$> sizes)).
  { clear -Hfit. induction Hfit as [|b l Hb _ IHl]; [reflexivity |].
    rewrite fmap_cons, total_cons. lia. }
  rewrite fmap_cons, total_cons in Hroom.
  simpl. unfold mul_int64.
  rewrite (proj2 (andb_true_iff _ _)) by (split; [apply Z.leb_le | apply Z.ltb_lt]; lia).
  simpl. rewrite to_size_t_small by lia. unfold cudaMalloc.
  rewrite (proj2 (Z.leb_le _ _)) by lia. simpl. apply IH; [assumption | simpl; lia].
Qed.

(** The destructor's loop on distinct live buffers: every one is freed,
    its capacity goes back to the free memory, nothing else changes. *)
Lemma free_all_Ok buffers : forall d,
  NoDup buffers ->
  Forall (fun p => is_Some (dev_heap d !! p)) buffers ->
  exists d',
    free_all buffers d = Ok d' /\
    (forall q, dev_heap d' !! q = if decide (q ∈ buffers) then None else dev_heap d !! q) /\
    dev_next d' = dev_next d /\
    dev_trace d' = dev_trace d ++ (CudaFree <$> buffers) /\
    dev_free d' = dev_free d + total ((fun p => default 0 (capacities d !! p)) <$> buffers).
Proof.
  induction buffers as [|p buffers IH]; intros d Hnodup Hlive.
  - exists d. split; [reflexivity |].
    split; [intros q; now rewrite decide_False by apply not_elem_of_nil |].
    split; [reflexivity |]. split; [now rewrite fmap_nil, app_nil_r |].
    rewrite fmap_nil. change (total []) with 0. lia.
  - apply NoDup_cons in Hnodup as [Hp Hnodup].
    apply Forall_cons in Hlive as [[b Hb] Hlive].
    cbn [free_all]. unfold cudaFree. rewrite Hb.
    cbn [CUDA_CHECK of_option mbind result_bind].
    match goal with |- context [free_all buffers ?d1] =>
      destruct (IH d1 Hnodup) as (d' & Hrun & Hheap & Hnext & Htrace & Hfree)
    end.
    { rewrite Forall_forall in Hlive |- *. intros q Hq. simpl.
      rewrite lookup_delete_ne by (intros ->; contradiction). now apply Hlive. }
    exists d'. split; [exact Hrun |]. simpl in Hheap, Hnext, Htrace, Hfree.
    split; [| split; [assumption | split]].
    + intros q. rewrite Hheap. destruct (decide (q = p)) as [-> | Hne].
      * rewrite (decide_True _ _ (list_elem_of_here _ _)).
        destruct (decide _); [reflexivity | apply lookup_delete_eq].
      * destruct (decide (q ∈ buffers)) as [Hin | Hout].
        -- now rewrite decide_True by (now right).
        -- rewrite decide_False by (now intros [|]%elem_of_cons).
           now apply lookup_delete_ne.
    + now rewrite Htrace, fmap_cons, <- app_assoc.
    + rewrite Hfree, fmap_cons, total_cons.
      unfold capacities at 2. rewrite lookup_fmap, Hb. simpl.
      assert (Heq : (fun q => default 0 (capacities {| dev_heap := delete p (dev_heap d);
                       dev_next := dev_next d; dev_free := dev_free d + db_cap b;
                       dev_trace := dev_trace d ++ [CudaFree p] |} !! q)) <$> buffers
                    = (fun q => default 0 (capacities d !! q)) <$> buffers).
      { apply list_fmap_ext. intros i q Hq%list_elem_of_lookup_2.
        unfold capacities; simpl. rewrite !lookup_fmap.
        rewrite lookup_delete_ne by (intros ->; contradiction). reflexivity. }
      rewrite Heq. lia.
Qed.

(** ** Construction *)

Lemma STR2CAT_MAPPING_keys (key : string) (sel : CalibrationAlgoType) :
  STR2CAT_MAPPING !! key = Some sel <->
  In (key, sel) [("legacy", kLEGACY_CALIBRATION); ("entropy", kENTROPY_CALIBRATION);
                 ("entropy_2", kENTROPY_CALIBRATION_2); ("minmax", kMINMAX_CALIBRATION)].
Proof.
  unfold STR2CAT_MAPPING. rewrite <- list_elem_of_In.
  symmetry. apply elem_of_list_to_map. simpl.
  apply (bool_decide_unpack (NoDup ["legacy"; "entropy"; "entropy_2"; "minmax"])).
  vm_compute. exact I.
Qed.

(** A key that is none of legacy, entropy, entropy_2 and minmax is
    not in the table: construction in either mode dereferences the end
    of the table, which is undefined, and yields no instance. *)
Theorem construct_unknown_key (c : construction Stream) w :
  ~ In (algorithm_key c) ["legacy"; "entropy"; "entropy_2"; "minmax"] ->
  construct c w = Fail Undefined.
Proof.
  intros Hkey.
  assert (Hnone : STR2CAT_MAPPING !! algorithm_key c = None).
  { destruct (STR2CAT_MAPPING !! algorithm_key c) as [sel|] eqn:Hsel; [| reflexivity].
    exfalso. apply Hkey. apply STR2CAT_MAPPING_keys in Hsel. simpl in Hsel |- *.
    destruct Hsel as [[= <- _] | [[= <- _] | [[= <- _] | [[= <- _] | []]]]]; tauto. }
  destruct c as [stream file algo | file algo batchsize quantile]; simpl in *.
  - unfold from_stream. simpl. now rewrite Hnone.
  - unfold from_cache. now rewrite Hnone.
Qed.

(** Stream-fed construction with one of the four keys goes through
    whenever no size is negative or overflows and the device has room
    for the sum of the sizes. It makes one [cudaMalloc] per declared
    input, in order, of batch size times byte size; the free device
    memory drops by the sum; files and standard output are untouched. *)
Theorem stream_fed_construction (stream : Stream) cacheFilename algo sel w :
  let batch := IBatchStream.getBatchSize stream in
  let sizes := IBatchStream.bytesPerBatch stream in
  In (algo, sel) [("legacy", kLEGACY_CALIBRATION); ("entropy", kENTROPY_CALIBRATION);
                  ("entropy_2", kENTROPY_CALIBRATION_2); ("minmax", kMINMAX_CALIBRATION)] ->
  Forall (fun bytes => 0 <= batch * bytes < 2 ^ 63) sizes ->
  total (Z.mul batch <$> sizes) <= dev_free (w_dev w) ->
  exists this w',
    construct (stream_fed stream cacheFilename algo) w = Ok (this, w') /\
    m_buffers this = handles (dev_next (w_dev w)) (length sizes) /\
    mInputBytes this = sizes /\
    dev_trace (w_dev w') =
      dev_trace (w_dev w) ++ zip_with CudaMalloc (m_buffers this) (Z.mul batch <$> sizes) /\
    dev_free (w_dev w') = dev_free (w_dev w) - total (Z.mul batch <$> sizes) /\
    w_fs w' = w_fs w /\ w_out w' = w_out w.
Proof.
  intros batch sizes Hkey%STR2CAT_MAPPING_keys Hfit Hroom.
  destruct (allocate_succeeds batch sizes [] (w_dev w) Hfit Hroom) as (buffers & d & Halloc).
  pose proof (allocate_layout _ _ _ _ _ _ Halloc) as Hlayout.
  destruct Hlayout as (-> & _ & Hfree & Htrace & _).
  { eapply Forall_impl; [exact Hfit | intros bytes Hb; simpl in Hb; lia]. }
  simpl. unfold from_stream. simpl. rewrite Hkey. simpl.
  fold batch sizes. rewrite Halloc. simpl. eexists _, _. split; [reflexivity |].
  simpl. now repeat split.
Qed.

(** The destructor gives back what the constructor took: after a
    stream-fed construction on a device whose live buffers all lie below
    [dev_next], and whatever member functions were called since,
    destruction frees every buffer of the instance; the device then has
    the live buffers, with their contents, and the free memory it had
    before construction. *)
Theorem destroy_releases_allocation (stream : Stream) cacheFilename algo w x y :
  0 <= IBatchStream.getBatchSize stream ->
  Forall (fun bytes => 0 <= bytes) (IBatchStream.bytesPerBatch stream) ->
  heap_fresh (w_dev w) ->
  construct (stream_fed stream cacheFilename algo) w = Ok x ->
  lifetime x y ->
  exists w',
    destroy (fst y) (snd y) = Ok w' /\
    dev_heap (w_dev w') = dev_heap (w_dev w) /\
    dev_free (w_dev w') = dev_free (w_dev w) /\
    dev_trace (w_dev w') = dev_trace (w_dev (snd y)) ++ (CudaFree <$> m_buffers (fst x)) /\
    w_fs w' = w_fs (snd y) /\ w_out w' = w_out (snd y).
Proof.
  intros Hbatch Hsizes Hfresh Hc Hlife. destruct x as [this wx].
  simpl in Hc. unfold from_stream in Hc; simpl in Hc.
  destruct (STR2CAT_MAPPING !! algo) as [a|]; [simpl in Hc | discriminate].
  destruct (allocate _ _ _ _) as [[buffers d]|] eqn:Halloc; [simpl in Hc | discriminate].
  injection Hc as <- <-.
  apply allocate_layout in Halloc as (-> & Hnext & Hfree & _ & Helse & Hcaps).
  2:{ eapply Forall_impl; [exact Hsizes | intros bytes Hb; now apply Z.mul_nonneg_nonneg]. }
  set (new := handles (dev_next (w_dev w)) (length (IBatchStream.bytesPerBatch stream))) in *.
  pose proof (lifetime_fixed _ _ Hlife) as [_ Hsame].
  pose proof (lifetime_members _ _ Hlife) as (_ & _ & _ & Hbufs).
  destruct (lifetime_device _ _ Hlife)
    as (copies & _ & _ & Hfree' & _ & Hkeep & Hlive).
  simpl in Hsame, Hbufs, Hfree', Hkeep, Hlive.
  destruct (free_all_Ok new (w_dev (snd y))) as (d' & Hrun & Hheap & _ & Htrace & Hback).
  { apply NoDup_handles. }
  { apply Forall_forall. intros p Hp. apply Hlive.
    apply list_elem_of_lookup_1 in Hp as [i Hi].
    destruct (Forall2_lookup_l _ _ _ _ _ Hcaps Hi) as (bytes & _ & Hcap).
    unfold capacities in Hcap. rewrite lookup_fmap in Hcap.
    destruct (dev_heap d !! p); [eauto | discriminate]. }
  exists (set_dev (snd y) d'). unfold destroy. rewrite Hbufs; simpl.
  rewrite Hrun; simpl. split; [reflexivity |]. split; [| split; [| now split]].
  - apply map_eq. intros q. rewrite Hheap. destruct (decide (q ∈ new)) as [Hin | Hout].
    + symmetry. apply eq_None_not_Some. intros Hq%Hfresh.
      apply elem_of_handles in Hin. lia.
    + rewrite Hkeep by assumption. now apply Helse.
  - rewrite Hback, Hfree', Hfree.
    assert (Hsum : forall new sizes,
               Forall2 (fun p bytes => capacities (w_dev (snd y)) !! p
                                       = Some (IBatchStream.getBatchSize stream * bytes))
                 new sizes ->
               total ((fun p => default 0 (capacities (w_dev (snd y)) !! p)) <$> new)
               = total (Z.mul (IBatchStream.getBatchSize stream) <$> sizes)).
    { clear. induction 1 as [|p bytes new sizes Hp _ IH]; [reflexivity |].
      rewrite !fmap_cons, !total_cons, Hp, IH. reflexivity. }
    rewrite (Hsum new (IBatchStream.bytesPerBatch stream)); [lia |].
    now rewrite Hsame.
Qed.

(** ** An instance without a stream *)

Lemma invoke_no_stream c this w this' w' :
  mStream this = None ->
  invoke c this w = Ok (this', w') ->
  mStream this' = None /\ w_dev w' = w_dev w.
Proof.
  intros Hnone. destruct c; simpl; intros Hrun;
    try (injection Hrun as <- <-; now split).
  - unfold getBatch in Hrun. now rewrite Hnone in Hrun.
  - unfold readCalibrationCache in Hrun.
    destruct (open_read _ _); injection Hrun as <- <-; now split.
  - unfold writeCalibrationCache in Hrun.
    destruct (open_write _ _) as [fo fs]. destruct (of_open fo).
    + destruct (_ <? length); [discriminate |]. simpl in Hrun.
      injection Hrun as <- <-. now split.
    + simpl in Hrun. injection Hrun as <- <-. now split.
  - unfold setScaleFile in Hrun.
    destruct (open_write _ _) as [fo fs]. destruct (open_read _ _).
    + destruct (setScaleFile_loop _ _ _ _ _ _ _); [| discriminate].
      simpl in Hrun. injection Hrun as <- <-. now split.
    + simpl in Hrun. injection Hrun as <- <-. now split.
Qed.

Lemma lifetime_no_stream x y :
  mStream (fst x) = None -> lifetime x y ->
  mStream (fst y) = None /\ w_dev (snd y) = w_dev (snd x).
Proof.
  intros Hnone. induction 1 as [x | x c [this w] [this' w'] _ IH Hcall]; [now split |].
  destruct (IH Hnone) as [Hs Hd]. simpl in *.
  apply (invoke_no_stream _ _ _ _ _ Hs) in Hcall as [Hs' Hd']. split; congruence.
Qed.

Lemma cache_replay_members cacheFilename algo batchsize quantile w x :
  construct (Stream := Stream) (cache_replay cacheFilename algo batchsize quantile) w = Ok x ->
  mStream (fst x) = None /\ m_buffers (fst x) = [] /\ snd x = w.
Proof.
  simpl. unfold from_cache.
  destruct (STR2CAT_MAPPING !! algo) as [a|]; [simpl | discriminate].
  now intros [= <-].
Qed.

(** An instance constructed in cache-replay mode has no device buffers
    and never touches the device: at every point of its lifetime the
    device is as it was at construction, and the destructor returns
    without a call to the CUDA runtime. *)
Theorem cache_replay_leaves_device cacheFilename algo batchsize quantile w x y :
  construct (Stream := Stream) (cache_replay cacheFilename algo batchsize quantile) w = Ok x ->
  lifetime x y ->
  w_dev (snd y) = w_dev w /\ destroy (fst y) (snd y) = Ok (snd y).
Proof.
  intros (Hnone & Hbufs & Hw)%cache_replay_members Hlife.
  pose proof (lifetime_no_stream _ _ Hnone Hlife) as [_ Hdev].
  apply lifetime_members in Hlife as (_ & _ & _ & Hsame).
  split; [congruence |]. unfold destroy. rewrite Hsame, Hbufs. simpl.
  now destruct (snd y).
Qed.

(** An instance constructed in cache-replay mode has a null stream for
    good: at every point of its lifetime [getBatch] dereferences it,
    which is undefined, whatever the arguments. *)
Theorem cache_replay_getBatch_undefined cacheFilename algo batchsize quantile w x y
    bindings names nbBindings :
  construct (Stream := Stream) (cache_replay cacheFilename algo batchsize quantile) w = Ok x ->
  lifetime x y ->
  getBatch (fst y) bindings names nbBindings (snd y) = Fail Undefined.
Proof.
  intros (Hnone & _)%cache_replay_members Hlife.
  apply (lifetime_no_stream _ _ Hnone) in Hlife as [Hs _].
  unfold getBatch. now rewrite Hs.
Qed.

(** ** The number of bindings *)

Lemma getBatch_loop_out_of_range n : forall i this ptrs bindings d,
  (i <= length (m_buffers this) < i + n)%nat ->
  exists f, getBatch_loop n i this ptrs bindings d = Fail f.
Proof.
  induction n as [|n IH]; intros i this ptrs bindings d Hlen; [lia |].
  simpl. destruct (m_buffers this !! i) as [dst|] eqn:Hdst; [simpl | now eexists].
  apply lookup_lt_Some in Hdst.
  destruct (ptrs !! i) as [src|]; [simpl | now eexists].
  destruct (mInputBytes this !! i) as [bytes|]; [simpl | now eexists].
  destruct (mul_int64 _ _) as [count|]; [simpl | now eexists].
  destruct (cudaMemcpy _ _ _ _) as [[d1|]|]; simpl; try now eexists.
  destruct (decide _); [| now eexists]. apply IH. lia.
Qed.

(** When the stream has a batch and [nbBindings] exceeds the number of
    device buffers of the instance, [getBatch] does not return: the loop
    has no bound but [nbBindings], and by the index past the last buffer
    at the latest the process has aborted or the behaviour is undefined. *)
Theorem getBatch_too_many_bindings this bindings names nbBindings w stream stream' :
  mStream this = Some stream ->
  IBatchStream.next stream = (true, stream') ->
  Z.of_nat (length (m_buffers this)) < nbBindings ->
  exists f, getBatch this bindings names nbBindings w = Fail f.
Proof.
  intros Hstream Hnext Hmany. unfold getBatch. rewrite Hstream; simpl. rewrite Hnext; simpl.
  destruct (getBatch_loop_out_of_range (Z.to_nat nbBindings) 0 (set_mStream this stream')
              (IBatchStream.getBatch stream') bindings (w_dev w)) as [f Hf].
  { simpl. lia. }
  rewrite Hf. now eexists.
Qed.

(** With [nbBindings] zero or negative the loop body never runs: the
    stream is advanced all the same, and when it had a batch the call
    returns true although nothing was copied and [bindings] is as it
    was. *)
Theorem getBatch_no_bindings this bindings names nbBindings w stream more stream' :
  mStream this = Some stream ->
  IBatchStream.next stream = (more, stream') ->
  nbBindings <= 0 ->
  getBatch this bindings names nbBindings w = Ok (more, set_mStream this stream', bindings, w).
Proof.
  intros Hstream Hnext Hnone. unfold getBatch. rewrite Hstream; simpl. rewrite Hnext.
  destruct more; simpl; [| reflexivity].
  replace (Z.to_nat nbBindings) with 0%nat by lia. simpl. now destruct w.
Qed.

(** ** What an instance does to the files *)

Lemma same_but_refl path fs : same_but path fs fs.
Proof. now repeat split. Qed.

Lemma same_but_trans path fs1 fs2 fs3 :
  same_but path fs1 fs2 -> same_but path fs2 fs3 -> same_but path fs1 fs3.
Proof.
  intros (Hr & Hw & Hf) (Hr' & Hw' & Hf'). repeat split; try congruence.
  intros other Hother. now rewrite Hf', Hf.
Qed.

Lemma of_write_same_but fo data fs :
  same_but (of_path fo) fs (of_write fo data fs) /\
  (of_open fo = false -> of_write fo data fs = fs).
Proof.
  unfold of_write. destruct (of_open fo); [| split; [apply same_but_refl | reflexivity]].
  split; [| discriminate]. repeat split. intros other Hother. simpl.
  now apply lookup_alter_ne.
Qed.

Lemma open_write_same_but fs path :
  same_but path fs (open_write fs path).2 /\
  of_path (open_write fs path).1 = path /\
  (path ∈ fs_nowrite fs ->
   (open_write fs path).2 = fs /\ of_open (open_write fs path).1 = false).
Proof.
  unfold open_write. destruct (decide (path ∈ fs_nowrite fs)) as [Hin | Hout]; simpl.
  - split; [apply same_but_refl | now split].
  - split; [| split; [reflexivity | contradiction]]. repeat split.
    intros other Hother. simpl. now apply lookup_insert_ne.
Qed.

Lemma setScaleFile_loop_same_but fuel : forall fi line tensorName scaleStr fo fs fs',
  setScaleFile_loop fuel fi line tensorName scaleStr fo fs = Ok fs' ->
  same_but (of_path fo) fs fs' /\ (of_open fo = false -> fs' = fs).
Proof.
  induction fuel as [|fuel IH]; intros fi line tensorName scaleStr fo fs fs'; [discriminate |].
  simpl. destruct (getline fi line newline) as [fi' line'].
  destruct (is_fail fi'); [intros [= <-]; split; [apply same_but_refl | reflexivity] |].
  destruct (getline (istream_of line') tensorName ":") as [iline tensorName'].
  destruct (getline iline scaleStr ":") as [iline' scaleStr'].
  assert (Hstep : forall data,
             setScaleFile_loop fuel fi' line' tensorName' scaleStr' fo (of_write fo data fs)
               = Ok fs' ->
             same_but (of_path fo) fs fs' /\ (of_open fo = false -> fs' = fs)).
  { intros data [Hsame Hclosed]%IH. destruct (of_write_same_but fo data fs) as [Hw Hwc].
    split; [eauto using same_but_trans |]. intros Hfo. rewrite Hclosed, Hwc; auto. }
  destruct (String.length scaleStr' =? 0)%nat; [apply Hstep |].
  destruct (stof scaleStr'); try discriminate. apply Hstep.
Qed.

Lemma invoke_files c this w this' w' :
  invoke c this w = Ok (this', w') ->
  same_but (mCalibrationTableName this) (w_fs w) (w_fs w') /\
  (mCalibrationTableName this ∈ fs_nowrite (w_fs w) -> w_fs w' = w_fs w).
Proof.
  assert (Hsame : same_but (mCalibrationTableName this) (w_fs w) (w_fs w) /\
                  (mCalibrationTableName this ∈ fs_nowrite (w_fs w) -> w_fs w = w_fs w))
    by (split; [apply same_but_refl | reflexivity]).
  destruct (open_write_same_but (w_fs w) (mCalibrationTableName this))
    as (Hopen & Hpath & Hdenied).
  destruct c; simpl; intros Hrun; try (injection Hrun as <- <-; exact Hsame).
  - unfold getBatch in Hrun.
    destruct (mStream this) as [s|]; [simpl in Hrun | discriminate].
    destruct (IBatchStream.next s) as [more s'].
    destruct more; simpl in Hrun.
    + destruct (getBatch_loop _ _ _ _ _ _) as [[b d]|]; [| discriminate].
      simpl in Hrun. injection Hrun as <- <-. exact Hsame.
    + injection Hrun as <- <-. exact Hsame.
  - unfold readCalibrationCache in Hrun.
    destruct (open_read _ _); injection Hrun as <- <-; exact Hsame.
  - unfold writeCalibrationCache in Hrun.
    destruct (open_write _ _) as [fo fs]. simpl in Hopen, Hpath, Hdenied.
    destruct (of_open fo) eqn:Hfo.
    + destruct (_ <? length); [discriminate |]. simpl in Hrun.
      injection Hrun as <- <-. simpl.
      destruct (of_write_same_but fo (take_bytes (Z.to_nat length) cache) fs) as [Hw _].
      rewrite Hpath in Hw. split; [eauto using same_but_trans |].
      intros [_ Hclosed]%Hdenied. congruence.
    + simpl in Hrun. injection Hrun as <- <-. simpl. split; [assumption |].
      now intros [-> _]%Hdenied.
  - unfold setScaleFile in Hrun.
    destruct (open_write _ _) as [fo fs]. simpl in Hopen, Hpath, Hdenied.
    destruct (open_read _ _).
    + destruct (setScaleFile_loop _ _ _ _ _ _ _) as [fs'|] eqn:Hloop; [| discriminate].
      simpl in Hrun. injection Hrun as <- <-. simpl.
      apply setScaleFile_loop_same_but in Hloop as [Hl Hclosed]. rewrite Hpath in Hl.
      split; [eauto using same_but_trans |].
      intros [-> Hfo]%Hdenied. now apply Hclosed.
    + simpl in Hrun. injection Hrun as <- <-. simpl. split; [assumption |].
      now intros [-> _]%Hdenied.
Qed.

(** An instance writes to no file but its cache file: at every point of
    its lifetime every other file is as it was, and when the cache file
    cannot be opened for writing no file has changed at all. *)
Theorem lifetime_writes_cache_file_only x y :
  lifetime x y ->
  (forall path, path <> mCalibrationTableName (fst x) ->
                fs_files (w_fs (snd y)) !! path = fs_files (w_fs (snd x)) !! path) /\
  (mCalibrationTableName (fst x) ∈ fs_nowrite (w_fs (snd x)) ->
   w_fs (snd y) = w_fs (snd x)).
Proof.
  intros Hlife.
  assert (Hinv : same_but (mCalibrationTableName (fst x)) (w_fs (snd x)) (w_fs (snd y)) /\
                 (mCalibrationTableName (fst x) ∈ fs_nowrite (w_fs (snd x)) ->
                  w_fs (snd y) = w_fs (snd x))).
  { induction Hlife as [x | x c [this w] [this' w'] Hlife [IHs IHd] Hcall].
    - split; [apply same_but_refl | reflexivity].
    - pose proof (lifetime_fixed _ _ Hlife) as [Hfixed _].
      unfold fixed_members in Hfixed. injection Hfixed as _ _ _ Hname _ _.
      apply invoke_files in Hcall as [Hs Hd]. simpl in *. rewrite Hname in Hs, Hd.
      split; [eauto using same_but_trans |].
      intros Hin. rewrite Hd; [now apply IHd |]. now rewrite IHd. }
  destruct Hinv as [(_ & _ & Hfiles) Hdenied]. now split.
Qed.

(** ** The cache file, further *)

(** When the cache file cannot be opened for writing,
    [writeCalibrationCache] returns as if nothing were wrong, whatever
    [length] is, and leaves the world as it was: a read that follows
    gives what the file held before, or nothing, and not the bytes that
    were to be written. *)
Theorem writeCalibrationCache_unwritable this (cache : string) (length : Z) w :
  mCalibrationTableName this ∈ fs_nowrite (w_fs w) ->
  exists w',
    writeCalibrationCache this cache length w = Ok w' /\ w' = w /\
    readCalibrationCache this w' = readCalibrationCache this w.
Proof.
  intros Hdenied. exists w. unfold writeCalibrationCache, open_write.
  rewrite decide_True by assumption. simpl. destruct w. now repeat split.
Qed.

(** [writeCalibrationCache] writes the first [length] bytes of the
    buffer and no more: when [length] is within the buffer and the cache
    file opens for writing and for reading, a read that follows returns
    [length] and exactly that prefix. *)
Theorem write_prefix_then_read this w (cache : string) (length : Z) :
  0 <= length <= Z.of_nat (String.length cache) ->
  mCalibrationTableName this ∉ fs_nowrite (w_fs w) ->
  mCalibrationTableName this ∉ fs_noread (w_fs w) ->
  exists w' this',
    writeCalibrationCache this cache length w = Ok w' /\
    readCalibrationCache this w' = (mCalibrationCache_data, length, this') /\
    deref this' mCalibrationCache_data = Some (take_bytes (Z.to_nat length) cache).
Proof.
  intros Hlen Hwrite Hread.
  assert (Hfile : writeCalibrationCache this cache length w =
            Ok (set_fs w (set_files (w_fs w)
                  (<[mCalibrationTableName this := take_bytes (Z.to_nat length) cache]>
                     (fs_files (w_fs w)))))).
  { unfold writeCalibrationCache, open_write. rewrite decide_False by assumption.
    simpl. rewrite (proj2 (Z.ltb_ge _ _)) by lia.
    unfold of_write; simpl. now rewrite alter_insert_eq. }
  eexists _, (set_mCalibrationCache this (take_bytes (Z.to_nat length) cache)).
  split; [exact Hfile |]. split; [| reflexivity].
  rewrite (readCalibrationCache_opened _ _ (take_bytes (Z.to_nat length) cache)).
  - rewrite take_bytes_length by lia. now rewrite Z2Nat.id by lia.
  - unfold open_read; simpl. rewrite decide_False by assumption. apply lookup_insert_eq.
Qed.

(** ** The transcoder on other files *)

(** A line without a colon, read by the three [getline]s of the loop
    body: the whole line is the name, and [scaleStr] is left as it was,
    for the third [getline] finds the line's stream at its end and
    clears nothing. *)
Lemma getline_bare (name rest line tensorName scaleStr : string) :
  field name ->
  getline (istream_of (name +:+ endl +:+ rest)) line newline = (istream_of rest, name) /\
  exists iline iline',
    getline (istream_of name) tensorName ":" = (iline, name) /\
    getline iline scaleStr ":" = (iline', scaleStr).
Proof.
  intros [Hcolon Hbreak]. rewrite !getline_good.
  change (name +:+ endl +:+ rest) with (name +:+ String newline rest).
  rewrite (scan_stops _ _ _ Hbreak), (scan_to_end _ _ Hcolon).
  split; [reflexivity |]. eexists _, _. split; reflexivity.
Qed.

(** The scale field in force after the lines [ls]. *)
Lemma scales_in_force_app scaleStr ls ls' :
  scales_in_force scaleStr (ls ++ ls')
  = scales_in_force scaleStr ls
    ++ scales_in_force (foldl (fun s e => default s e.2) scaleStr ls) ls'.
Proof.
  revert scaleStr. induction ls as [|[name o] ls IH]; intros scaleStr; [reflexivity |].
  simpl. now rewrite IH.
Qed.

(** The loop over lines with or without a colon, followed by whatever
    text: after one iteration per line the cache file has received the
    cache lines for the scales in force, and the loop goes on with the
    rest of the text and the last scale field. *)
Lemma setScaleFile_loop_prefix ls : forall outs rest fuel line tensorName scaleStr fo fs acc,
  Forall (fun e => field e.1 /\ from_option field True e.2) ls ->
  Forall2 cache_line (scales_in_force scaleStr ls) outs ->
  of_open fo = true ->
  fs_files fs !! of_path fo = Some acc ->
  exists line' tensorName',
    setScaleFile_loop (length ls + fuel) (istream_of (override_lines ls +:+ rest))
      line tensorName scaleStr fo fs
    = setScaleFile_loop fuel (istream_of rest) line' tensorName'
        (foldl (fun s e => default s e.2) scaleStr ls) fo
        (set_files fs (<[of_path fo := acc +:+ concat_lines outs]> (fs_files fs))).
Proof.
  induction ls as [|[name o] ls IH];
    intros outs rest fuel line tensorName scaleStr fo fs acc Hfields Hlines Hopen Hacc.
  - apply Forall2_nil_inv_l in Hlines as ->. exists line, tensorName. simpl.
    rewrite append_empty_r, insert_id by assumption. now destruct fs.
  - simpl in Hlines.
    apply Forall2_cons_inv_l in Hlines as (out & outs' & Hline & Hlines & ->).
    apply Forall_cons in Hfields as [[Hname Hscale] Hfields]. simpl in Hname, Hscale.
    change (concat_lines (out :: outs')) with (out +:+ concat_lines outs').
    assert (Hnext : forall line' tensorName' fs1,
               fs1 = set_files fs (<[of_path fo := acc +:+ out]> (fs_files fs)) ->
               exists line'' tensorName'',
                 setScaleFile_loop (length ls + fuel)
                   (istream_of (override_lines ls +:+ rest)) line' tensorName'
                   (default scaleStr o) fo fs1
                 = setScaleFile_loop fuel (istream_of rest) line'' tensorName''
                     (foldl (fun s e => default s e.2) (default scaleStr o) ls) fo
                     (set_files fs (<[of_path fo := acc +:+ out +:+ concat_lines outs']>
                                      (fs_files fs)))).
    { intros line' tensorName' fs1 ->.
      destruct (IH outs' rest fuel line' tensorName' (default scaleStr o) fo
                  (set_files fs (<[of_path fo := acc +:+ out]> (fs_files fs)))
                  (acc +:+ out) Hfields Hlines Hopen) as (l & t & Hrun);
        [apply lookup_insert_eq |].
      exists l, t. rewrite Hrun. cbn [fs_files set_files].
      now rewrite insert_insert_eq, append_assoc. }
    cbn [length Nat.add foldl snd]. cbn [setScaleFile_loop].
    destruct o as [scale|]; simpl in Hscale.
    + change (override_lines ((name, Some scale) :: ls))
        with (name +:+ ":" +:+ scale +:+ endl +:+ override_lines ls).
      rewrite !append_assoc.
      change ((":" +:+ scale +:+ endl +:+ override_lines ls +:+ rest))
        with (":" +:+ scale +:+ endl +:+ (override_lines ls +:+ rest)).
      destruct (getline_fields name scale (override_lines ls +:+ rest) line tensorName
                  scaleStr Hname Hscale) as (Hg1 & Hg2 & iline & Hg3).
      rewrite Hg1. cbn [is_fail istream_of]. rewrite Hg2, Hg3.
      inversion Hline as [name' Hn Ho | name' scale' fp Hne Hstof Hn Ho]; subst.
      * cbn [String.length Nat.eqb]. rewrite (of_write_open _ _ _ acc Hopen Hacc).
        now apply Hnext.
      * destruct scale as [|c scale]; [congruence |]. cbn [String.length Nat.eqb].
        rewrite Hstof. cbv zeta. rewrite (of_write_open _ _ _ acc Hopen Hacc).
        now apply Hnext.
    + change (override_lines ((name, None) :: ls))
        with (name +:+ endl +:+ override_lines ls).
      rewrite !append_assoc.
      destruct (getline_bare name (override_lines ls +:+ rest) line tensorName scaleStr Hname)
        as (Hg1 & iline & iline' & Hg2 & Hg3).
      rewrite Hg1. cbn [is_fail istream_of]. rewrite Hg2, Hg3.
      cbn [default from_option] in Hline |- *. unfold id in Hline |- *.
      inversion Hline as [name' Hn Ho | name' scale' fp Hne Hstof Hn Ho]; subst.
      * cbn [String.length Nat.eqb].
        rewrite (of_write_open _ _ _ acc Hopen Hacc). now apply Hnext.
      * destruct scaleStr as [|c scaleStr]; [congruence |]. cbn [String.length Nat.eqb].
        rewrite Hstof. cbv zeta. rewrite (of_write_open _ _ _ acc Hopen Hacc).
        now apply Hnext.
Qed.

Lemma length_override_lines ls :
  (length ls <= String.length (override_lines ls))%nat.
Proof.
  induction ls as [|[name [scale|]] ls IH]; [simpl; lia | |].
  - change (override_lines ((name, Some scale) :: ls))
      with (name +:+ ":" +:+ scale +:+ endl +:+ override_lines ls).
    rewrite !length_append. unfold endl. cbn [String.length length]. lia.
  - change (override_lines ((name, None) :: ls))
      with (name +:+ endl +:+ override_lines ls).
    rewrite !length_append. unfold endl. cbn [String.length length]. lia.
Qed.

(** [setScaleFile] once both files are open, the override file being
    another file than the cache file. *)
Lemma setScaleFile_opened this filename w content :
  filename <> mCalibrationTableName this ->
  open_read (w_fs w) filename = Some content ->
  mCalibrationTableName this ∉ fs_nowrite (w_fs w) ->
  let fs := set_files (w_fs w) (<[mCalibrationTableName this := ""]> (fs_files (w_fs w))) in
  setScaleFile this filename w =
    (fs' ← setScaleFile_loop (S (String.length content)) (istream_of content) "" "" ""
             {| of_path := mCalibrationTableName this; of_open := true |} fs;
     Ok (set_fs (cout (set_fs w fs)
                   ("[INFO ] Reset calibration cache with scale file user provided: "
                    +:+ filename)) fs')).
Proof.
  intros Hother Hread Hwrite fs.
  unfold setScaleFile, open_write. rewrite Hread, decide_False by assumption.
  cbn [set_fs set_files fs_files w_fs cout].
  assert (Hfile : fs_files (w_fs w) !! filename = Some content).
  { unfold open_read in Hread. now destruct (decide _). }
  rewrite lookup_insert_ne, Hfile by congruence. reflexivity.
Qed.

(** In an override file whose lines are [name:scale] or a bare [name], a
    line without a colon is transcoded with the scale field of the
    nearest line above that has one (the empty field if there is none):
    the failed [getline] leaves [scaleStr] as it was. The cache file
    consists of the cache lines for the scale fields in force. *)
Theorem setScaleFile_scale_in_force this filename w ls outs :
  filename <> mCalibrationTableName this ->
  open_read (w_fs w) filename = Some (override_lines ls) ->
  mCalibrationTableName this ∉ fs_nowrite (w_fs w) ->
  Forall (fun e => field e.1 /\ from_option field True e.2) ls ->
  Forall2 cache_line (scales_in_force "" ls) outs ->
  exists w',
    setScaleFile this filename w = Ok w' /\
    fs_files (w_fs w') =
      <[mCalibrationTableName this := concat_lines outs]> (fs_files (w_fs w)).
Proof.
  intros Hother Hread Hwrite Hfields Hlines.
  rewrite (setScaleFile_opened _ _ _ _ Hother Hread Hwrite). cbv zeta.
  pose proof (length_override_lines ls) as Hlen.
  replace (S (String.length (override_lines ls)))
    with (length ls + S (String.length (override_lines ls) - length ls))%nat by lia.
  replace (istream_of (override_lines ls))
    with (istream_of (override_lines ls +:+ "")) by now rewrite append_empty_r.
  edestruct (setScaleFile_loop_prefix ls outs "") as (line & tensorName & ->);
    [eassumption | eassumption | reflexivity | apply lookup_insert_eq |].
  simpl. eexists. split; [reflexivity |]. simpl. now rewrite insert_insert_eq.
Qed.

(** A scale field that [std::stof] does not convert ends [setScaleFile]
    with the exception [std::stof] throws: [std::invalid_argument] for a
    field that is no number, [std::out_of_range] for one out of the
    range of [float], whatever lines come above and below it. *)
Theorem setScaleFile_throws this filename w ls outs name scale rest :
  filename <> mCalibrationTableName this ->
  open_read (w_fs w) filename
    = Some (override_lines ls +:+ name +:+ ":" +:+ scale +:+ endl +:+ rest) ->
  mCalibrationTableName this ∉ fs_nowrite (w_fs w) ->
  Forall (fun e => field e.1 /\ from_option field True e.2) ls ->
  Forall2 cache_line (scales_in_force "" ls) outs ->
  field name -> field scale -> scale <> "" ->
  (stof scale = StofInvalidArgument ->
   setScaleFile this filename w = Fail (Thrown "invalid_argument")) /\
  (stof scale = StofOutOfRange ->
   setScaleFile this filename w = Fail (Thrown "out_of_range")).
Proof.
  intros Hother Hread Hwrite Hfields Hlines Hname Hscale Hne.
  rewrite (setScaleFile_opened _ _ _ _ Hother Hread Hwrite). cbv zeta.
  pose proof (length_override_lines ls) as Hlen.
  set (bad := name +:+ ":" +:+ scale +:+ endl +:+ rest).
  replace (S (String.length (override_lines ls +:+ bad)))
    with (length ls + S (String.length (override_lines ls +:+ bad) - length ls))%nat
    by (rewrite length_append; lia).
  edestruct (setScaleFile_loop_prefix ls outs bad) as (line & tensorName & ->);
    [eassumption | eassumption | reflexivity | apply lookup_insert_eq |].
  cbn [setScaleFile_loop]. unfold bad.
  destruct (getline_fields name scale rest line tensorName
              (foldl (fun s e => default s e.2) "" ls) Hname Hscale)
    as (Hg1 & Hg2 & iline & Hg3).
  rewrite Hg1. cbn [is_fail istream_of]. rewrite Hg2, Hg3.
  destruct scale as [|c scale]; [congruence |]. cbn [String.length Nat.eqb].
  split; intros ->; reflexivity.
Qed.

(** Transcoding the cache file onto itself destroys it: [fo] truncates
    the file before [fi] has read anything, the loop finds nothing to
    read, and the cache file is left empty. *)
Theorem setScaleFile_onto_itself this w content :
  open_read (w_fs w) (mCalibrationTableName this) = Some content ->
  mCalibrationTableName this ∉ fs_nowrite (w_fs w) ->
  exists w',
    setScaleFile this (mCalibrationTableName this) w = Ok w' /\
    fs_files (w_fs w') = <[mCalibrationTableName this := ""]> (fs_files (w_fs w)) /\
    w_out w' = w_out w
               +:+ ("[INFO ] Reset calibration cache with scale file user provided: "
                    +:+ mCalibrationTableName this) +:+ endl.
Proof.
  intros Hread Hwrite. unfold setScaleFile, open_write.
  rewrite Hread, decide_False by assumption.
  cbn [set_fs set_files fs_files w_fs cout]. rewrite lookup_insert_eq.
  simpl. eexists. split; [reflexivity |]. now split.
Qed.

(** [setScaleFile] terminates on every override file: the loop is given
    one step more than the file has characters and never needs more. *)
Theorem setScaleFile_terminates this filename w :
  setScaleFile this filename w <> Fail OutOfFuel.
Proof.
  unfold setScaleFile. destruct (open_write _ _) as [fo fs].
  destruct (open_read _ _); [| discriminate].
  match goal with |- context [setScaleFile_loop ?n ?fi ?l ?t ?s ?o ?f] =>
    pose proof (setScaleFile_loop_fuel n fi l t s o f) as Hfuel;
    destruct (setScaleFile_loop n fi l t s o f) as [fs'|e]
  end; [discriminate |].
  simpl. intros [= ->]. apply Hfuel; [simpl; lia | reflexivity].
Qed.

Lemma setScaleFile_loop_last_line fuel (name scale line tensorName scaleStr : string) fo fs :
  field name -> field scale ->
  setScaleFile_loop (S (S fuel)) (istream_of (name +:+ ":" +:+ scale))
    line tensorName scaleStr fo fs
  = if (String.length scale =? 0)%nat then Ok (of_write fo (name +:+ endl) fs)
    else match stof scale with
         | StofValue fp =>
             Ok (of_write fo
                   (name +:+ ": "
                    +:+ hex_uint32 (Float32.bits (Float32.div fp (Float32.of_Z 127)))
                    +:+ endl) fs)
         | StofInvalidArgument => Fail (Thrown "invalid_argument")
         | StofOutOfRange => Fail (Thrown "out_of_range")
         | StofOtherForm => Fail NotModelled
         end.
Proof.
  intros [Hname1 Hname2] [Hscale1 Hscale2].
  assert (Hbreak : contains newline (name +:+ ":" +:+ scale) = false).
  { rewrite contains_app, Hname2. exact Hscale2. }
  assert (Hsome : (String.length (name +:+ ":" +:+ scale) =? 0)%nat = false).
  { apply Nat.eqb_neq. rewrite !length_append. cbn [String.length]. lia. }
  remember (S fuel) as fuel' eqn:Efuel. cbn [setScaleFile_loop].
  rewrite getline_good, (scan_to_end _ _ Hbreak), Hsome. cbn [is_fail].
  rewrite getline_good.
  change (name +:+ ":" +:+ scale) with (name +:+ String ":" scale).
  rewrite (scan_stops _ _ _ Hname1), getline_good, (scan_to_end _ _ Hscale1).
  subst fuel'.
  destruct (String.length scale =? 0)%nat; [reflexivity |].
  destruct (stof scale); reflexivity.
Qed.

(** A last line [name:scale] that no line break ends is transcoded like
    the others: [getline] meets the end of the file with characters in
    hand, which sets [eofbit] but not [failbit], and the loop stops at
    the next turn only. *)
Theorem setScaleFile_last_line_unterminated this filename w ls outs name scale out :
  filename <> mCalibrationTableName this ->
  open_read (w_fs w) filename = Some (override_lines ls +:+ name +:+ ":" +:+ scale) ->
  mCalibrationTableName this ∉ fs_nowrite (w_fs w) ->
  Forall (fun e => field e.1 /\ from_option field True e.2) ls ->
  Forall2 cache_line (scales_in_force "" ls) outs ->
  field name -> field scale -> cache_line (name, scale) out ->
  exists w',
    setScaleFile this filename w = Ok w' /\
    fs_files (w_fs w') =
      <[mCalibrationTableName this := concat_lines outs +:+ out]> (fs_files (w_fs w)).
Proof.
  intros Hother Hread Hwrite Hfields Hlines Hname Hscale Hline.
  rewrite (setScaleFile_opened _ _ _ _ Hother Hread Hwrite). cbv zeta.
  pose proof (length_override_lines ls) as Hlen.
  set (last := name +:+ ":" +:+ scale).
  assert (Hlast : (1 <= String.length last)%nat).
  { unfold last. rewrite !length_append. cbn [String.length]. lia. }
  replace (S (String.length (override_lines ls +:+ last)))
    with (length ls + S (S (String.length (override_lines ls +:+ last) - length ls - 1)))%nat
    by (rewrite length_append; lia).
  edestruct (setScaleFile_loop_prefix ls outs last) as (line & tensorName & ->);
    [eassumption | eassumption | reflexivity | apply lookup_insert_eq |].
  unfold last. rewrite (setScaleFile_loop_last_line _ _ _ _ _ _ _ _ Hname Hscale).
  inversion Hline as [name' Hn Ho | name' scale' fp Hne Hstof Hn Ho]; subst.
  - cbn [String.length Nat.eqb].
    erewrite of_write_open by (reflexivity || apply lookup_insert_eq).
    simpl. eexists. split; [reflexivity |]. simpl.
    now rewrite !insert_insert_eq, !append_assoc.
  - destruct scale as [|c' scale]; [congruence |]. cbn [String.length Nat.eqb].
    rewrite Hstof.
    erewrite of_write_open by (reflexivity || apply lookup_insert_eq).
    simpl. eexists. split; [reflexivity |]. simpl.
    now rewrite !insert_insert_eq, !append_assoc.
Qed.

End Further.

(** ** The hexadecimal text of a scale *)

Lemma hex_value_digit d : 0 <= d < 16 -> hex_value (hex_digit d) = d.
Proof.
  intros Hd.
  assert (Hcases : d = 0 \/ d = 1 \/ d = 2 \/ d = 3 \/ d = 4 \/ d = 5 \/ d = 6 \/ d = 7 \/
                   d = 8 \/ d = 9 \/ d = 10 \/ d = 11 \/ d = 12 \/ d = 13 \/ d = 14 \/ d = 15)
    by lia.
  repeat (destruct Hcases as [-> | Hcases]; [reflexivity |]). now subst.
Qed.

(** The digits [hex_digits] puts in front of [acc] read back as [n]. *)
Lemma unhex_hex_digits width : forall n acc,
  0 <= n < 16 ^ Z.of_nat width -> (0 < width)%nat ->
  exists k : nat,
    (1 <= k <= width)%nat /\
    String.length (hex_digits width n acc) = (k + String.length acc)%nat /\
    forall v, unhex v (hex_digits width n acc) = unhex (v * 16 ^ Z.of_nat k + n) acc.
Proof.
  induction width as [|width IH]; intros n acc Hn Hwidth; [lia |].
  cbn [hex_digits].
  assert (Hdigit : 0 <= n mod 16 < 16) by (apply Z.mod_pos_bound; lia).
  destruct (n / 16 =? 0) eqn:Hhigh.
  - apply Z.eqb_eq in Hhigh. exists 1%nat. split; [lia |]. split; [reflexivity |].
    intros v. cbn [unhex]. rewrite hex_value_digit by assumption.
    f_equal. rewrite (Z.div_mod n 16) at 2 by lia. rewrite Hhigh. lia.
  - apply Z.eqb_neq in Hhigh.
    assert (Hquot : 0 <= n / 16 < 16 ^ Z.of_nat width).
    { split; [apply Z.div_pos; lia |]. apply Z.div_lt_upper_bound; [lia |].
      rewrite Nat2Z.inj_succ, Z.pow_succ_r in Hn by lia. lia. }
    assert (Hpos : (0 < width)%nat).
    { destruct width; [| lia]. simpl in Hquot. lia. }
    destruct (IH (n / 16) (String (hex_digit (n mod 16)) acc) Hquot Hpos)
      as (k & Hk & Hlen & Hread).
    exists (S k). split; [lia |]. split; [rewrite Hlen; simpl; lia |].
    intros v. rewrite Hread. cbn [unhex]. rewrite hex_value_digit by assumption.
    f_equal. rewrite Nat2Z.inj_succ, Z.pow_succ_r by lia.
    rewrite (Z.div_mod n 16) at 3 by lia. ring.
Qed.

(** The text [std::hex] gives for a bit pattern has between one and
    eight digits and reads back, as a hexadecimal number, as the same
    32-bit pattern: the cache line determines the scale's bits. *)
Theorem unhex_hex_uint32 (n : Z) :
  unhex 0 (hex_uint32 n) = n mod 2 ^ 32 /\
  (1 <= String.length (hex_uint32 n) <= 8)%nat.
Proof.
  unfold hex_uint32.
  destruct (unhex_hex_digits 8 (n mod 2 ^ 32) "") as (k & Hk & Hlen & Hread).
  - change (16 ^ Z.of_nat 8) with (2 ^ 32). apply Z.mod_pos_bound. lia.
  - lia.
  - rewrite Hread, Hlen. simpl. split; lia.
Qed.

(** ** The further properties at sample inputs *)

Lemma construct_unknown_key_witness :
  construct (Stream := list_stream) (cache_replay "calib.cache" "Entropy" 4 None) Sample.w
  = Fail Undefined.
Proof.
  apply (construct_unknown_key (cache_replay "calib.cache" "Entropy" 4 None) Sample.w).
  simpl. intros [H | [H | [H | [H | []]]]]; discriminate H.
Defined.

Lemma stream_fed_construction_witness :
  exists this w',
    construct (stream_fed Sample.stream "calib.cache" "entropy_2") Sample.w = Ok (this, w') /\
    m_buffers this = [1; 2; 3]%N /\
    mInputBytes this = [100; 50; 25] /\
    dev_trace (w_dev w') =
      zip_with CudaMalloc (m_buffers this) [400; 200; 100] /\
    dev_free (w_dev w') = 2 ^ 30 - 700 /\
    w_fs w' = Sample.files /\ w_out w' = "".
Proof.
  refine (stream_fed_construction Sample.stream "calib.cache" "entropy_2"
            kENTROPY_CALIBRATION_2 Sample.w _ _ _).
  - simpl. tauto.
  - repeat constructor; simpl; lia.
  - vm_compute. discriminate.
Defined.

Lemma sample_lifetime : lifetime (Sample.calibrator, Sample.w_ready) Sample.two_batches.
Proof. eapply lifetime_trans; apply lifetime_after. Qed.

Lemma destroy_releases_allocation_witness :
  exists w',
    destroy (fst Sample.two_batches) (snd Sample.two_batches) = Ok w' /\
    dev_heap (w_dev w') = ∅ /\
    dev_free (w_dev w') = 2 ^ 30 /\
    dev_trace (w_dev w') =
      dev_trace (w_dev (snd Sample.two_batches)) ++ [CudaFree 1; CudaFree 2; CudaFree 3] /\
    w_fs w' = w_fs (snd Sample.two_batches) /\ w_out w' = w_out (snd Sample.two_batches).
Proof.
  refine (destroy_releases_allocation Sample.stream "calib.cache" "entropy_2" Sample.w
            (Sample.calibrator, Sample.w_ready) Sample.two_batches _ _ _ _ _).
  - simpl. lia.
  - repeat constructor; lia.
  - intros p [b Hb]. simpl in Hb. rewrite lookup_empty in Hb. discriminate Hb.
  - vm_compute. reflexivity.
  - exact sample_lifetime.
Defined.

Lemma lifetime_only_copies_into_own_buffers_witness :
  exists copies,
    dev_trace (w_dev (snd Sample.two_batches)) = dev_trace Sample.gpu_ready ++ copies /\
    Forall (own_copy Sample.calibrator) copies /\
    dev_free (w_dev (snd Sample.two_batches)) = dev_free Sample.gpu_ready /\
    (forall p, p ∉ [1; 2; 3]%N ->
               dev_heap (w_dev (snd Sample.two_batches)) !! p = dev_heap Sample.gpu_ready !! p).
Proof.
  apply (lifetime_only_copies_into_own_buffers
           (Sample.calibrator, Sample.w_ready) Sample.two_batches).
  exact sample_lifetime.
Defined.

Lemma replay_constructed :
  construct (Stream := list_stream) (cache_replay "calib.cache" "entropy" 4 None) Sample.w
  = Ok (Sample.replay "calib.cache", Sample.w).
Proof. reflexivity. Qed.

Lemma replay_lifetime : lifetime (Sample.replay "calib.cache", Sample.w) Edge.replayed.
Proof. eapply lifetime_trans; apply lifetime_after. Qed.

Lemma cache_replay_leaves_device_witness :
  w_dev (snd Edge.replayed) = Sample.gpu /\
  destroy (fst Edge.replayed) (snd Edge.replayed) = Ok (snd Edge.replayed).
Proof.
  apply (cache_replay_leaves_device "calib.cache" "entropy" 4 None Sample.w
           (Sample.replay "calib.cache", Sample.w) Edge.replayed).
  - exact replay_constructed.
  - exact replay_lifetime.
Defined.

Lemma cache_replay_getBatch_undefined_witness :
  getBatch (fst Edge.replayed) [0; 0; 0]%N Sample.names 3 (snd Edge.replayed) = Fail Undefined.
Proof.
  apply (cache_replay_getBatch_undefined "calib.cache" "entropy" 4 None Sample.w
           (Sample.replay "calib.cache", Sample.w) Edge.replayed).
  - exact replay_constructed.
  - exact replay_lifetime.
Defined.

Lemma getBatch_too_many_bindings_witness :
  exists f,
    getBatch Sample.calibrator [0; 0; 0; 0]%N Sample.names 4 Sample.w_ready = Fail f.
Proof.
  refine (getBatch_too_many_bindings Sample.calibrator [0; 0; 0; 0]%N Sample.names 4
            Sample.w_ready Sample.stream _ eq_refl eq_refl _).
  simpl. lia.
Defined.

Lemma getBatch_no_bindings_witness :
  getBatch Sample.calibrator [0; 0; 0]%N Sample.names 0 Sample.w_ready
  = Ok (true,
        set_mStream Sample.calibrator
          {| ls_bytes := [100; 50; 25]; ls_batch_size := 4;
             ls_current := Sample.batch "a"; ls_pending := [Sample.batch "b"] |},
        [0; 0; 0]%N, Sample.w_ready).
Proof.
  refine (getBatch_no_bindings Sample.calibrator [0; 0; 0]%N Sample.names 0
            Sample.w_ready Sample.stream true _ eq_refl eq_refl _).
  lia.
Defined.

Lemma lifetime_writes_cache_file_only_witness :
  (forall path, path <> "calib.cache" ->
                fs_files (w_fs (snd Edge.replayed)) !! path = fs_files Sample.files !! path) /\
  ("calib.cache" ∈ fs_nowrite Sample.files -> w_fs (snd Edge.replayed) = Sample.files).
Proof.
  apply (lifetime_writes_cache_file_only (Sample.replay "calib.cache", Sample.w) Edge.replayed).
  exact replay_lifetime.
Defined.

Lemma writeCalibrationCache_unwritable_witness :
  exists w',
    writeCalibrationCache (Sample.replay "calib.cache") "scales" 6 Edge.read_only = Ok w' /\
    w' = Edge.read_only /\
    readCalibrationCache (Sample.replay "calib.cache") w'
    = readCalibrationCache (Sample.replay "calib.cache") Edge.read_only.
Proof.
  apply (writeCalibrationCache_unwritable (Sample.replay "calib.cache") "scales" 6
           Edge.read_only).
  vm_compute. reflexivity.
Defined.

Lemma write_prefix_then_read_witness :
  exists w' this',
    writeCalibrationCache (Sample.replay "calib.cache") "scales" 3 Sample.w = Ok w' /\
    readCalibrationCache (Sample.replay "calib.cache") w' = (mCalibrationCache_data, 3, this') /\
    deref this' mCalibrationCache_data = Some "sca".
Proof.
  refine (write_prefix_then_read (Sample.replay "calib.cache") Sample.w "scales" 3 _ _ _).
  - simpl. lia.
  - apply not_elem_of_empty.
  - apply not_elem_of_empty.
Defined.

Lemma setScaleFile_scale_in_force_witness :
  exists w',
    setScaleFile (Sample.replay "calib.cache") "bare.txt" Edge.w = Ok w' /\
    fs_files (w_fs w') =
      <["calib.cache" := concat_lines ["convA: 3c810204" +:+ endl;
                                       "convB: 3c810204" +:+ endl]]>
        (fs_files Edge.files).
Proof.
  apply (setScaleFile_scale_in_force (Sample.replay "calib.cache") "bare.txt" Edge.w
           [("convA", Some "2.0"); ("convB", None)]).
  - discriminate.
  - reflexivity.
  - apply not_elem_of_empty.
  - repeat constructor.
  - constructor; [| constructor; [| constructor]].
    + apply (cache_line_scale "convA" "2.0" (S754_finite false 8388608 (-22)));
        [discriminate | reflexivity].
    + apply (cache_line_scale "convB" "2.0" (S754_finite false 8388608 (-22)));
        [discriminate | reflexivity].
Defined.

Lemma setScaleFile_throws_witness :
  setScaleFile (Sample.replay "calib.cache") "bad.txt" Edge.w
  = Fail (Thrown "invalid_argument") /\
  setScaleFile (Sample.replay "calib.cache") "range.txt" Edge.w_forms
  = Fail (Thrown "out_of_range").
Proof.
  split.
  - refine (proj1 (setScaleFile_throws (Sample.replay "calib.cache") "bad.txt" Edge.w
                     [("convA", Some "2.0")] ["convA: 3c810204" +:+ endl]
                     "convB" "abc" ("convC:1.0" +:+ endl) _ _ _ _ _ _ _ _) _).
    + discriminate.
    + reflexivity.
    + apply not_elem_of_empty.
    + repeat constructor.
    + constructor; [| constructor].
      apply (cache_line_scale "convA" "2.0" (S754_finite false 8388608 (-22)));
        [discriminate | reflexivity].
    + split; reflexivity.
    + split; reflexivity.
    + discriminate.
    + reflexivity.
  - refine (proj2 (setScaleFile_throws (Sample.replay "calib.cache") "range.txt" Edge.w_forms
                     [("convA", Some "2.0")] ["convA: 3c810204" +:+ endl]
                     "convB" "1e39" "" _ _ _ _ _ _ _ _) _).
    + discriminate.
    + reflexivity.
    + apply not_elem_of_empty.
    + repeat constructor.
    + constructor; [| constructor].
      apply (cache_line_scale "convA" "2.0" (S754_finite false 8388608 (-22)));
        [discriminate | reflexivity].
    + split; reflexivity.
    + split; reflexivity.
    + discriminate.
    + reflexivity.
Defined.

Lemma setScaleFile_onto_itself_witness :
  exists w',
    setScaleFile (Sample.replay "scales.txt") "scales.txt" Sample.w = Ok w' /\
    fs_files (w_fs w') = <["scales.txt" := ""]> (fs_files Sample.files) /\
    w_out w' = "" +:+ ("[INFO ] Reset calibration cache with scale file user provided: "
                       +:+ "scales.txt") +:+ endl.
Proof.
  apply (setScaleFile_onto_itself (Sample.replay "scales.txt") Sample.w
           ("convA:2.0" +:+ endl +:+ "convB:" +:+ endl)).
  - reflexivity.
  - apply not_elem_of_empty.
Defined.

Lemma setScaleFile_last_line_unterminated_witness :
  exists w',
    setScaleFile (Sample.replay "calib.cache") "open.txt" Edge.w = Ok w' /\
    fs_files (w_fs w') =
      <["calib.cache" := concat_lines ["convB" +:+ endl] +:+ "convA: 3c810204" +:+ endl]>
        (fs_files Edge.files).
Proof.
  apply (setScaleFile_last_line_unterminated (Sample.replay "calib.cache") "open.txt" Edge.w
           [("convB", Some "")] ["convB" +:+ endl] "convA" "2.0").
  - discriminate.
  - reflexivity.
  - apply not_elem_of_empty.
  - repeat constructor.
  - constructor; [| constructor]. apply cache_line_bare.
  - split; reflexivity.
  - split; reflexivity.
  - apply (cache_line_scale "convA" "2.0" (S754_finite false 8388608 (-22)));
      [discriminate | reflexivity].
Defined.
